(** * tini: a minimal init for containers — shallow embedding of [src/tini.c]

    The program is a single-threaded C process that talks to the kernel
    through a handful of system calls.  The embedding keeps the control flow
    of every C function and threads an explicit [World] through it: the
    process-local state ([verbosity], [errno], [optind], the installed signal
    mask), the chronological [trace] of observable actions, and a scripted
    environment that says what each system call will answer next.

    Integer data are [Z]; signal sets are 64-bit masks handled with the bit
    operations of [Z]; out-parameters ([int*], [sigset_t*]) are passed in as
    the current content of the pointee and handed back with the result, and
    so is the array behind [argv], which [getopt] may reorder in place. *)

From Stdlib Require Import ZArith List Bool String Ascii Lia.
Import ListNotations.
Local Open Scope Z_scope.

(** ** Constants of the platform headers (Linux, asm-generic numbering) *)

Definition SIGILL  : Z := 4.
Definition SIGTRAP : Z := 5.
Definition SIGABRT : Z := 6.
Definition SIGBUS  : Z := 7.
Definition SIGFPE  : Z := 8.
Definition SIGSEGV : Z := 11.
Definition SIGCHLD : Z := 17.
Definition SIGSYS  : Z := 31.

(** Highest signal number; signals are numbered [1 .. SIGMAX]. *)
Definition SIGMAX : Z := 64.

(** The two signals below SIGRTMIN that glibc reserves (nptl). *)
Definition SIGCANCEL : Z := 32.
Definition SIGSETXID : Z := 33.

Definition ESRCH  : Z := 3.
Definition EINTR  : Z := 4.
Definition ECHILD : Z := 10.
Definition EAGAIN : Z := 11.
Definition EINVAL : Z := 22.

Definition SIG_BLOCK   : Z := 0.
Definition SIG_UNBLOCK : Z := 1.
Definition SIG_SETMASK : Z := 2.

(** ** Signal sets: bit [sig - 1] of the mask stands for signal [sig] *)

Definition sigset := Z.

Definition valid_signal (sig : Z) : bool := (0 <? sig) && (sig <=? SIGMAX).

Definition sigbit (sig : Z) : Z := Z.shiftl 1 (sig - 1).

(** The set [sigfillset] builds.  glibc keeps two signals for itself
    (thread cancellation and the setxid broadcast) and leaves them out of
    every full set. *)
Definition full_sigset : sigset :=
  Z.clearbit (Z.clearbit (Z.ones SIGMAX) (SIGCANCEL - 1)) (SIGSETXID - 1).

Definition sigismember (set : sigset) (sig : Z) : bool :=
  valid_signal sig && Z.testbit set (sig - 1).

(** ** Wait statuses, as decoded by the macros of [<sys/wait.h>] *)

Definition WTERMSIG (status : Z) : Z := Z.land status 127.

Definition WEXITSTATUS (status : Z) : Z := Z.shiftr (Z.land status 65280) 8.

Definition WIFEXITED (status : Z) : bool := WTERMSIG status =? 0.

(** [(signed char)] conversion of a value in [0 .. 255]. *)
Definition signed_char (v : Z) : Z := if v <? 128 then v else v - 256.

Definition WIFSIGNALED (status : Z) : bool :=
  0 <? Z.shiftr (signed_char (Z.land status 127 + 1)) 1.

(** The status word the kernel builds for [exit(code)] and for death by a
    signal (no core dump). *)
Definition W_EXITCODE (code : Z) : Z := Z.shiftl code 8.
Definition W_TERMSIG (sig : Z) : Z := sig.

(** ** Observable actions *)

Inductive stream : Type := Stdout | Stderr.

Inductive level : Type := FATAL | WARN | INFO | DEBUG | TRACE.

(** Stream each diagnostic macro writes to. *)
Definition level_stream (l : level) : stream :=
  match l with
  | FATAL | WARN => Stderr
  | INFO | DEBUG | TRACE => Stdout
  end.

Inductive event : Type :=
| EvLog (lvl : level) (fmt : string)          (* one PRINT_xxx line *)
| EvUsage (out : stream) (name : string)      (* print_usage(name, out) *)
| EvGetopt (c : Z)                            (* getopt returned c *)
| EvSigprocmask (how : Z) (set : sigset)      (* successful sigprocmask *)
| EvFork (ret : Z)                            (* fork returned ret *)
| EvExecvp (file : string) (args : list string)
| EvSigtimedwait (set : sigset) (ret : Z)     (* sigtimedwait returned ret *)
| EvKill (pid sig : Z)                        (* kill(pid, sig) was issued *)
| EvWaitpid (ret status : Z).                 (* waitpid(-1, _, WNOHANG) *)

(** ** Scripted answers of the environment *)

(** Answer of [sigtimedwait]: a signal was dequeued, or the call failed. *)
Inductive stw_ret : Type :=
| StwSignal (signo : positive)
| StwFail (e : Z).

(** Answer of [waitpid(-1, &status, WNOHANG)]. *)
Inductive wait_ret : Type :=
| WaitReaped (pid : positive) (status : Z)    (* a zombie was collected *)
| WaitNone                                    (* children exist, none ended *)
| WaitFail (e : Z).                           (* -1, errno = e *)

(** Answer of [fork]. *)
Inductive fork_ret : Type :=
| ForkParent (pid : positive)
| ForkChild
| ForkFail (e : Z).

(** For calls that only succeed or fail, [None] is success and [Some e] is
    failure with [errno = e]. *)
Definition fault := option Z.

Record World : Type := mkWorld {
  (* state of the process *)
  verbosity : Z;                    (* static int verbosity *)
  errno : Z;
  optind : Z;
  procmask : sigset;                (* signal mask installed in the kernel *)
  trace : list event;               (* oldest first *)
  (* what the environment will answer; a call consumes the head *)
  env_sigfillset : list fault;
  env_sigdelset : list fault;
  env_sigprocmask : list fault;
  env_getopt : list (Z * Z);        (* value returned, optind afterwards *)
  env_calloc : fault;
  env_fork : fork_ret;
  env_execvp : fault;               (* None: the image is replaced *)
  env_sigtimedwait : list stw_ret;
  env_kill : list fault;
  env_waitpid : list wait_ret;
  env_argv : list (list string)     (* the array behind argv after getopt *)
}.

Definition set_verbosity (v : Z) (w : World) : World :=
  mkWorld v (errno w) (optind w) (procmask w) (trace w)
    (env_sigfillset w) (env_sigdelset w) (env_sigprocmask w) (env_getopt w)
    (env_calloc w) (env_fork w) (env_execvp w) (env_sigtimedwait w)
    (env_kill w) (env_waitpid w) (env_argv w).

Definition set_errno (e : Z) (w : World) : World :=
  mkWorld (verbosity w) e (optind w) (procmask w) (trace w)
    (env_sigfillset w) (env_sigdelset w) (env_sigprocmask w) (env_getopt w)
    (env_calloc w) (env_fork w) (env_execvp w) (env_sigtimedwait w)
    (env_kill w) (env_waitpid w) (env_argv w).

Definition set_optind (o : Z) (w : World) : World :=
  mkWorld (verbosity w) (errno w) o (procmask w) (trace w)
    (env_sigfillset w) (env_sigdelset w) (env_sigprocmask w) (env_getopt w)
    (env_calloc w) (env_fork w) (env_execvp w) (env_sigtimedwait w)
    (env_kill w) (env_waitpid w) (env_argv w).

Definition set_procmask (m : sigset) (w : World) : World :=
  mkWorld (verbosity w) (errno w) (optind w) m (trace w)
    (env_sigfillset w) (env_sigdelset w) (env_sigprocmask w) (env_getopt w)
    (env_calloc w) (env_fork w) (env_execvp w) (env_sigtimedwait w)
    (env_kill w) (env_waitpid w) (env_argv w).

Definition set_trace (t : list event) (w : World) : World :=
  mkWorld (verbosity w) (errno w) (optind w) (procmask w) t
    (env_sigfillset w) (env_sigdelset w) (env_sigprocmask w) (env_getopt w)
    (env_calloc w) (env_fork w) (env_execvp w) (env_sigtimedwait w)
    (env_kill w) (env_waitpid w) (env_argv w).

Definition set_env_sigfillset (q : list fault) (w : World) : World :=
  mkWorld (verbosity w) (errno w) (optind w) (procmask w) (trace w)
    q (env_sigdelset w) (env_sigprocmask w) (env_getopt w)
    (env_calloc w) (env_fork w) (env_execvp w) (env_sigtimedwait w)
    (env_kill w) (env_waitpid w) (env_argv w).

Definition set_env_sigdelset (q : list fault) (w : World) : World :=
  mkWorld (verbosity w) (errno w) (optind w) (procmask w) (trace w)
    (env_sigfillset w) q (env_sigprocmask w) (env_getopt w)
    (env_calloc w) (env_fork w) (env_execvp w) (env_sigtimedwait w)
    (env_kill w) (env_waitpid w) (env_argv w).

Definition set_env_sigprocmask (q : list fault) (w : World) : World :=
  mkWorld (verbosity w) (errno w) (optind w) (procmask w) (trace w)
    (env_sigfillset w) (env_sigdelset w) q (env_getopt w)
    (env_calloc w) (env_fork w) (env_execvp w) (env_sigtimedwait w)
    (env_kill w) (env_waitpid w) (env_argv w).

Definition set_env_getopt (q : list (Z * Z)) (w : World) : World :=
  mkWorld (verbosity w) (errno w) (optind w) (procmask w) (trace w)
    (env_sigfillset w) (env_sigdelset w) (env_sigprocmask w) q
    (env_calloc w) (env_fork w) (env_execvp w) (env_sigtimedwait w)
    (env_kill w) (env_waitpid w) (env_argv w).

Definition set_env_sigtimedwait (q : list stw_ret) (w : World) : World :=
  mkWorld (verbosity w) (errno w) (optind w) (procmask w) (trace w)
    (env_sigfillset w) (env_sigdelset w) (env_sigprocmask w) (env_getopt w)
    (env_calloc w) (env_fork w) (env_execvp w) q
    (env_kill w) (env_waitpid w) (env_argv w).

Definition set_env_kill (q : list fault) (w : World) : World :=
  mkWorld (verbosity w) (errno w) (optind w) (procmask w) (trace w)
    (env_sigfillset w) (env_sigdelset w) (env_sigprocmask w) (env_getopt w)
    (env_calloc w) (env_fork w) (env_execvp w) (env_sigtimedwait w)
    q (env_waitpid w) (env_argv w).

Definition set_env_waitpid (q : list wait_ret) (w : World) : World :=
  mkWorld (verbosity w) (errno w) (optind w) (procmask w) (trace w)
    (env_sigfillset w) (env_sigdelset w) (env_sigprocmask w) (env_getopt w)
    (env_calloc w) (env_fork w) (env_execvp w) (env_sigtimedwait w)
    (env_kill w) q (env_argv w).

Definition set_env_argv (q : list (list string)) (w : World) : World :=
  mkWorld (verbosity w) (errno w) (optind w) (procmask w) (trace w)
    (env_sigfillset w) (env_sigdelset w) (env_sigprocmask w) (env_getopt w)
    (env_calloc w) (env_fork w) (env_execvp w) (env_sigtimedwait w)
    (env_kill w) (env_waitpid w) q.

(** ** The monad: state, plus the two ways a C function may fail to return *)

Inductive outcome (A : Type) : Type :=
| Normal (a : A)      (* the function returned a *)
| Replaced            (* execvp succeeded: this program is gone *)
| OutOfFuel.          (* the loop bound of the model was reached *)

Arguments Normal {A} a.
Arguments Replaced {A}.
Arguments OutOfFuel {A}.

Definition M (A : Type) : Type := World -> outcome A * World.

Definition ret {A} (a : A) : M A := fun w => (Normal a, w).

Definition bind {A B} (m : M A) (k : A -> M B) : M B :=
  fun w =>
    match m w with
    | (Normal a, w') => k a w'
    | (Replaced, w') => (Replaced, w')
    | (OutOfFuel, w') => (OutOfFuel, w')
    end.

Declare Scope tini_scope.
Delimit Scope tini_scope with tini.
Notation "x <- m ;; k" := (bind m (fun x => k))
  (at level 61, m at next level, right associativity) : tini_scope.
Notation "' p <- m ;; k" := (bind m (fun x => let p := x in k))
  (at level 61, p pattern, m at next level, right associativity) : tini_scope.
Notation "m ;; k" := (bind m (fun _ => k))
  (at level 61, right associativity) : tini_scope.
Local Open Scope tini_scope.

Definition get {A} (f : World -> A) : M A := fun w => (Normal (f w), w).
Definition modify (f : World -> World) : M unit := fun w => (Normal tt, f w).
Definition emit (e : event) : M unit :=
  modify (fun w => set_trace (trace w ++ [e]) w).
Definition out_of_fuel {A} : M A := fun w => (OutOfFuel, w).
Definition replaced {A} : M A := fun w => (Replaced, w).

(** A failing call stores its error number and returns -1. *)
Definition fail_with (e : Z) : M Z := modify (set_errno e) ;; ret (-1).

(** ** The C library and the kernel, as far as tini uses them *)

Definition sigfillset (set : sigset) : M (Z * sigset) :=
  q <- get env_sigfillset ;;
  modify (set_env_sigfillset (tl q)) ;;
  match hd None q with
  | Some e => r <- fail_with e ;; ret (r, set)
  | None => ret (0, full_sigset)
  end.

Definition sigdelset (set : sigset) (sig : Z) : M (Z * sigset) :=
  if valid_signal sig then
    q <- get env_sigdelset ;;
    modify (set_env_sigdelset (tl q)) ;;
    match hd None q with
    | Some e => r <- fail_with e ;; ret (r, set)
    | None => ret (0, Z.clearbit set (sig - 1))
    end
  else
    r <- fail_with EINVAL ;; ret (r, set).

(** [oldset] is [None] for a NULL pointer; otherwise it carries the current
    content of the pointee and receives the previous mask on success. *)
Definition sigprocmask (how : Z) (set : sigset) (oldset : option sigset)
  : M (Z * option sigset) :=
  q <- get env_sigprocmask ;;
  modify (set_env_sigprocmask (tl q)) ;;
  match hd None q with
  | Some e => r <- fail_with e ;; ret (r, oldset)
  | None =>
    old <- get procmask ;;
    let saved := match oldset with None => None | Some _ => Some old end in
    if how =? SIG_BLOCK then
      modify (set_procmask (Z.lor old set)) ;;
      emit (EvSigprocmask how set) ;; ret (0, saved)
    else if how =? SIG_UNBLOCK then
      modify (set_procmask (Z.ldiff old set)) ;;
      emit (EvSigprocmask how set) ;; ret (0, saved)
    else if how =? SIG_SETMASK then
      modify (set_procmask set) ;;
      emit (EvSigprocmask how set) ;; ret (0, saved)
    else
      r <- fail_with EINVAL ;; ret (r, oldset)
  end.

(** [getopt(argc, argv, "hv")]: the scripted answer is the returned
    character together with the value [optind] has afterwards; an exhausted
    script means the options are over.  The call may also reorder the array
    behind [argv]: GNU getopt moves the options in front of the other
    arguments as it scans, a POSIX getopt leaves the array alone.
    [env_argv] scripts the array as each call leaves it (an exhausted script
    leaves it as it is), and the result carries the array afterwards. *)
Definition getopt (argv : list string) : M (Z * list string) :=
  p <- get env_argv ;;
  modify (set_env_argv (tl p)) ;;
  q <- get env_getopt ;;
  match q with
  | [] => emit (EvGetopt (-1)) ;; ret (-1, hd argv p)
  | (c, oi) :: q' =>
    modify (set_env_getopt q') ;;
    modify (set_optind oi) ;;
    emit (EvGetopt c) ;; ret (c, hd argv p)
  end.

(** [calloc]: [true] when the returned pointer is not NULL. *)
Definition calloc : M bool :=
  f <- get env_calloc ;;
  match f with
  | Some e => modify (set_errno e) ;; ret false
  | None => ret true
  end.

Definition fork : M Z :=
  f <- get env_fork ;;
  match f with
  | ForkParent pid => emit (EvFork (Z.pos pid)) ;; ret (Z.pos pid)
  | ForkChild => emit (EvFork 0) ;; ret 0
  | ForkFail e => emit (EvFork (-1)) ;; fail_with e
  end.

Definition execvp (file : string) (args : list string) : M Z :=
  emit (EvExecvp file args) ;;
  f <- get env_execvp ;;
  match f with
  | None => replaced
  | Some e => fail_with e
  end.

(** [sigtimedwait(set, &sig, &ts)]: returns the value of the call and the
    content of [sig.si_signo] afterwards.  An exhausted script is a timeout. *)
Definition sigtimedwait (set : sigset) (si_signo : Z) : M (Z * Z) :=
  q <- get env_sigtimedwait ;;
  modify (set_env_sigtimedwait (tl q)) ;;
  match hd (StwFail EAGAIN) q with
  | StwSignal s =>
    emit (EvSigtimedwait set (Z.pos s)) ;; ret (Z.pos s, Z.pos s)
  | StwFail e =>
    emit (EvSigtimedwait set (-1)) ;;
    r <- fail_with e ;; ret (r, si_signo)
  end.

Definition kill (pid sig : Z) : M Z :=
  emit (EvKill pid sig) ;;
  q <- get env_kill ;;
  modify (set_env_kill (tl q)) ;;
  match hd None q with
  | None => ret 0
  | Some e => fail_with e
  end.

(** [waitpid(-1, &status, WNOHANG)]: returns the value of the call and the
    content of [status] afterwards.  An exhausted script reports that
    nothing has terminated. *)
Definition waitpid_nohang (status : Z) : M (Z * Z) :=
  q <- get env_waitpid ;;
  modify (set_env_waitpid (tl q)) ;;
  match hd WaitNone q with
  | WaitReaped pid st =>
    emit (EvWaitpid (Z.pos pid) st) ;; ret (Z.pos pid, st)
  | WaitNone =>
    emit (EvWaitpid 0 status) ;; ret (0, status)
  | WaitFail e =>
    emit (EvWaitpid (-1) status) ;;
    r <- fail_with e ;; ret (r, status)
  end.

(** ** tini.c *)

(** The PRINT_xxx macros: FATAL is unconditional, the others are gated by
    the verbosity level. *)
Definition PRINT_FATAL (fmt : string) : M unit := emit (EvLog FATAL fmt).

Definition print_gated (threshold : Z) (lvl : level) (fmt : string) : M unit :=
  v <- get verbosity ;;
  if threshold <? v then emit (EvLog lvl fmt) else ret tt.

Definition PRINT_WARNING := print_gated 0 WARN.
Definition PRINT_INFO := print_gated 1 INFO.
Definition PRINT_DEBUG := print_gated 2 DEBUG.
Definition PRINT_TRACE := print_gated 3 TRACE.

Definition spawn (child_sigset : sigset) (argv : list string) (child_pid : Z)
  : M (Z * Z) :=
  pid <- fork ;;
  if pid <? 0 then
    PRINT_FATAL "Fork failed: '%s'" ;;
    ret (1, child_pid)
  else if pid =? 0 then
    (* Child *)
    '(r, _) <- sigprocmask SIG_SETMASK child_sigset None ;;
    if negb (r =? 0) then
      PRINT_FATAL "Setting child signal mask failed: '%s'" ;;
      ret (1, child_pid)
    else
      execvp (nth 0 argv EmptyString) argv ;;
      PRINT_FATAL "Executing child process '%s' failed: '%s'" ;;
      ret (1, child_pid)
  else
    (* Parent *)
    PRINT_INFO "Spawned child process '%s' with pid '%i'" ;;
    ret (0, pid).

Definition print_usage (name : string) (file : stream) : M unit :=
  emit (EvUsage file name).

Definition ch (c : ascii) : Z := Z.of_nat (nat_of_ascii c).

(** The [while ((c = getopt(...)) != -1)] loop of [parse_args].  The first
    component of the result is [Some r] when the loop body executed
    [return r], [None] when the loop ran to its end; the second is the
    content of [*parse_fail_exitcode_ptr]; the third is the array behind
    [argv] as the calls of [getopt] left it. *)
Fixpoint parse_options (fuel : nat) (name : string) (parse_fail_exitcode : Z)
    (argv : list string)
  : M (option Z * Z * list string) :=
  match fuel with
  | O => out_of_fuel
  | S fuel' =>
    '(c, argv) <- getopt argv ;;
    if c =? -1 then ret (None, parse_fail_exitcode, argv)
    else if c =? ch "h"%char then
      print_usage name Stdout ;;
      ret (Some 1, 0, argv)
    else if c =? ch "v"%char then
      modify (fun w => set_verbosity (verbosity w + 1) w) ;;
      parse_options fuel' name parse_fail_exitcode argv
    else if c =? ch "?"%char then
      print_usage name Stderr ;;
      ret (Some 1, parse_fail_exitcode, argv)
    else
      ret (Some 1, parse_fail_exitcode, argv)
  end.

(** The copy loop [for (i = 0; i < argc - optind; i++)], run [n] times. *)
Definition copy_args (argv : list string) (optind : Z) (n : nat) : list string :=
  map (fun i => nth (Z.to_nat (optind + Z.of_nat i)) argv EmptyString) (seq 0 n).

(** [child_args] is the array behind [*child_args_ptr_ptr] without its NULL
    terminator. *)
Definition parse_args (argc : Z) (argv : list string)
    (child_args : list string) (parse_fail_exitcode : Z)
  : M (Z * list string * Z) :=
  let name := nth 0 argv EmptyString in
  n <- get (fun w => List.length (env_getopt w)) ;;
  '(r, parse_fail_exitcode, argv) <-
     parse_options (S n) name parse_fail_exitcode argv ;;
  match r with
  | Some v => ret (v, child_args, parse_fail_exitcode)
  | None =>
    ok <- calloc ;;
    if negb ok then
      PRINT_FATAL "Failed to allocate memory for child args: '%s'" ;;
      ret (1, [], parse_fail_exitcode)
    else
      oi <- get optind ;;
      let i := Z.max 0 (argc - oi) in
      let child_args := copy_args argv oi (Z.to_nat i) in
      if i =? 0 then
        (* User forgot to provide args! *)
        print_usage name Stderr ;;
        ret (1, child_args, parse_fail_exitcode)
      else
        ret (0, child_args, parse_fail_exitcode)
  end.

Definition ignore_signals : list Z :=
  [SIGFPE; SIGILL; SIGSEGV; SIGBUS; SIGABRT; SIGTRAP; SIGSYS].

(** The [for] loop of [prepare_sigmask] over the remaining array entries. *)
Fixpoint delete_signals (sigs : list Z) (set : sigset) : M (Z * sigset) :=
  match sigs with
  | [] => ret (0, set)
  | s :: rest =>
    '(r, set) <- sigdelset set s ;;
    if negb (r =? 0) then
      PRINT_FATAL "sigdelset failed: '%i'" ;;
      ret (1, set)
    else
      delete_signals rest set
  end.

Definition prepare_sigmask (parent_sigset child_sigset : sigset)
  : M (Z * sigset * sigset) :=
  (* Prepare signals to block; make sure we don't block program error signals. *)
  '(r, parent_sigset) <- sigfillset parent_sigset ;;
  if negb (r =? 0) then
    PRINT_FATAL "sigfillset failed: '%s'" ;;
    ret (1, parent_sigset, child_sigset)
  else
    '(r, parent_sigset) <- delete_signals ignore_signals parent_sigset ;;
    if negb (r =? 0) then
      ret (1, parent_sigset, child_sigset)
    else
      '(r, old) <- sigprocmask SIG_SETMASK parent_sigset (Some child_sigset) ;;
      if negb (r =? 0) then
        PRINT_FATAL "sigprocmask failed: '%s'" ;;
        ret (1, parent_sigset, child_sigset)
      else
        ret (0, parent_sigset,
             match old with Some m => m | None => child_sigset end).

Definition wait_and_forward_signal (parent_sigset : sigset) (child_pid : Z)
  : M Z :=
  '(r, si_signo) <- sigtimedwait parent_sigset 0 ;;
  if r =? -1 then
    e <- get errno ;;
    if e =? EAGAIN then ret 0
    else if e =? EINTR then ret 0
    else
      PRINT_FATAL "Unexpected error in sigtimedwait: '%s'" ;;
      ret 1
  else
    (* There is a signal to handle here *)
    if si_signo =? SIGCHLD then
      (* Special-cased, as we don't forward SIGCHLD. *)
      PRINT_DEBUG "Received SIGCHLD" ;;
      ret 0
    else
      PRINT_DEBUG "Passing signal: '%s'" ;;
      (* Forward anything else *)
      k <- kill child_pid si_signo ;;
      if negb (k =? 0) then
        e <- get errno ;;
        if e =? ESRCH then
          PRINT_WARNING "Child was dead when forwarding signal" ;;
          ret 0
        else
          PRINT_FATAL "Unexpected error when forwarding signal: '%s'" ;;
          ret 1
      else
        ret 0.

(** The [while (1)] loop of [reap_zombies]; the result is the returned
    value and the content of [*child_exitcode_ptr]. *)
Fixpoint reap_loop (fuel : nat) (child_pid : Z) (child_exitcode : Z)
    (current_status : Z) : M (Z * Z) :=
  match fuel with
  | O => out_of_fuel
  | S fuel' =>
    '(current_pid, current_status) <- waitpid_nohang current_status ;;
    if current_pid =? -1 then
      e <- get errno ;;
      if e =? ECHILD then
        PRINT_TRACE "No child to wait." ;;
        ret (0, child_exitcode)
      else
        PRINT_FATAL "Error while waiting for pids: '%s'" ;;
        ret (1, child_exitcode)
    else if current_pid =? 0 then
      PRINT_TRACE "No child to reap." ;;
      ret (0, child_exitcode)
    else
      (* A child was reaped. Check whether it's the main one. *)
      PRINT_DEBUG "Reaped child with pid: '%i'" ;;
      if current_pid =? child_pid then
        if WIFEXITED current_status then
          (* Our process exited normally. *)
          PRINT_INFO "Main child exited normally (with status '%i')" ;;
          reap_loop fuel' child_pid (WEXITSTATUS current_status) current_status
        else if WIFSIGNALED current_status then
          (* Our process was terminated: 128 + signal number. *)
          PRINT_INFO "Main child exited with signal (with signal '%s')" ;;
          reap_loop fuel' child_pid (128 + WTERMSIG current_status) current_status
        else
          PRINT_FATAL "Main child exited for unknown reason!" ;;
          ret (1, child_exitcode)
      else
        (* Check if other childs have been reaped. *)
        reap_loop fuel' child_pid child_exitcode current_status
  end.

(** Every turn of the loop that goes on consumes one scripted answer of
    [waitpid], so one more turn than the script is long always suffices. *)
Definition reap_zombies (child_pid : Z) (child_exitcode : Z) : M (Z * Z) :=
  n <- get (fun w => List.length (env_waitpid w)) ;;
  reap_loop (S n) child_pid child_exitcode 0.

(** The [while (1)] loop of [main]; [fuel] bounds the number of turns. *)
Fixpoint main_loop (fuel : nat) (parent_sigset : sigset) (child_pid : Z)
    (child_exitcode : Z) : M Z :=
  match fuel with
  | O => out_of_fuel
  | S fuel' =>
    (* Wait for one signal, and forward it *)
    r <- wait_and_forward_signal parent_sigset child_pid ;;
    if negb (r =? 0) then ret 1
    else
      (* Now, reap zombies *)
      '(r, child_exitcode) <- reap_zombies child_pid child_exitcode ;;
      if negb (r =? 0) then ret 1
      else if negb (child_exitcode =? -1) then
        PRINT_TRACE "Child has exited. Exiting" ;;
        ret child_exitcode
      else
        main_loop fuel' parent_sigset child_pid child_exitcode
  end.

Definition main (fuel : nat) (argv : list string) : M Z :=
  let argc := Z.of_nat (List.length argv) in
  let child_pid := 0 in
  (* Those are passed to functions to get an exitcode back. *)
  let child_exitcode := -1 in
  let parse_exitcode := 1 in
  (* Prepare sigmask *)
  '(r, parent_sigset, child_sigset) <- prepare_sigmask 0 0 ;;
  if negb (r =? 0) then ret 1
  else
    (* Parse command line arguments *)
    '(parse_args_ret, child_args, parse_exitcode) <-
       parse_args argc argv [] parse_exitcode ;;
    if negb (parse_args_ret =? 0) then ret parse_exitcode
    else
      '(r, child_pid) <- spawn child_sigset child_args child_pid ;;
      if negb (r =? 0) then ret 1
      else
        main_loop fuel parent_sigset child_pid child_exitcode.


(** ** Reading a trace *)

Definition is_fatal (e : event) : bool :=
  match e with EvLog FATAL _ => true | _ => false end.

(** Some PRINT_FATAL line was written. *)
Definition logged_fatal (tr : list event) : bool := existsb is_fatal tr.

(** The signals sent, as (target, signal) pairs, oldest first. *)
Definition kills (tr : list event) : list (Z * Z) :=
  flat_map (fun e => match e with EvKill p s => [(p, s)] | _ => [] end) tr.

(** The values [fork] returned. *)
Definition forks (tr : list event) : list Z :=
  flat_map (fun e => match e with EvFork r => [r] | _ => [] end) tr.

(** The streams the usage text was printed to. *)
Definition usages (tr : list event) : list stream :=
  flat_map (fun e => match e with EvUsage s _ => [s] | _ => [] end) tr.

(** The statuses [waitpid] collected for process [pid]. *)
Definition reaped_statuses (pid : Z) (tr : list event) : list Z :=
  flat_map (fun e => match e with
                     | EvWaitpid r st => if r =? pid then [st] else []
                     | _ => []
                     end) tr.

(** What the next [sigtimedwait] and the next [kill] will answer. *)
Definition next_signal (w : World) : stw_ret :=
  hd (StwFail EAGAIN) (env_sigtimedwait w).

Definition next_kill (w : World) : fault := hd None (env_kill w).

(** The two ways [wait_and_forward_signal] can meet a fatal condition. *)
Definition wait_failed_fatally (w : World) : Prop :=
  exists e, next_signal w = StwFail e /\ e <> EAGAIN /\ e <> EINTR.

Definition forward_failed_fatally (w : World) : Prop :=
  exists s e,
    next_signal w = StwSignal s /\ Z.pos s <> SIGCHLD /\
    next_kill w = Some e /\ e <> ESRCH.

(** ** ZombieReaper, as the design describes it *)

(** ExitOutcome of a collected status, as a numeric code: the exit code of a
    normal exit, [128 + N] for death by signal [N], nothing for any other
    classification. *)
Definition outcome_of (status : Z) : option Z :=
  if WIFEXITED status then Some (WEXITSTATUS status)
  else if WIFSIGNALED status then Some (128 + WTERMSIG status)
  else None.

(** One draining pass over the answers of the status-collection primitive:
    [reaper_pass pid c q r c' q'] says that, started with recorded code [c]
    and pending answers [q], the pass reports [r] (0 normal, 1 fatal),
    leaves the recorded code [c'] and the answers [q'] unconsumed. *)
Inductive reaper_pass (pid : Z) : Z -> list wait_ret -> Z -> Z -> list wait_ret -> Prop :=
| pass_exhausted c :
    reaper_pass pid c [] 0 c []
| pass_nothing_terminated c q :
    reaper_pass pid c (WaitNone :: q) 0 c q
| pass_no_descendants c q :
    reaper_pass pid c (WaitFail ECHILD :: q) 0 c q
| pass_collect_failed c e q :
    e <> ECHILD ->
    reaper_pass pid c (WaitFail e :: q) 1 c q
| pass_other_descendant c p st q r c' q' :
    Z.pos p <> pid ->
    reaper_pass pid c q r c' q' ->
    reaper_pass pid c (WaitReaped p st :: q) r c' q'
| pass_main_child c p st code q r c' q' :
    Z.pos p = pid ->
    outcome_of st = Some code ->
    reaper_pass pid code q r c' q' ->
    reaper_pass pid c (WaitReaped p st :: q) r c' q'
| pass_main_child_unknown c p st q :
    Z.pos p = pid ->
    outcome_of st = None ->
    reaper_pass pid c (WaitReaped p st :: q) 1 c q.

(** Events a draining pass may leave in the trace. *)
Definition is_reap_event (e : event) : bool :=
  match e with EvWaitpid _ _ | EvLog _ _ => true | _ => false end.

(** [w'] differs from [w] at most in the trace, [errno] and the pending
    answers of [waitpid]. *)
Definition reap_frame (w w' : World) : Prop :=
  w' = set_trace (trace w') (set_errno (errno w')
         (set_env_waitpid (env_waitpid w') w)).

Definition last_status (l : list Z) : option Z :=
  match rev l with [] => None | s :: _ => Some s end.

(** A collected descendant that does not stop the pass: any descendant
    other than the main child, or the main child with a status that is a
    normal exit or a termination by signal. *)
Definition benign_reap (pid : Z) (a : wait_ret) : Prop :=
  match a with
  | WaitReaped p st =>
    Z.pos p = pid -> WIFEXITED st = true \/ WIFSIGNALED st = true
  | _ => False
  end.

(** An answer that is fatal to the pass: a failure other than ECHILD, or a
    status of the main child that is neither a normal exit nor a termination
    by signal. *)
Definition fatal_answer (pid : Z) (a : wait_ret) : Prop :=
  match a with
  | WaitFail e => e <> ECHILD
  | WaitReaped p st =>
    Z.pos p = pid /\ WIFEXITED st = false /\ WIFSIGNALED st = false
  | WaitNone => False
  end.

(** The pass over [q] meets a fatal answer. *)
Definition fatal_pass (pid : Z) (q : list wait_ret) : Prop :=
  exists pre a post,
    q = pre ++ a :: post /\ Forall (benign_reap pid) pre /\ fatal_answer pid a.

(** An answer that reports no termination. *)
Definition quiescent (a : wait_ret) : Prop :=
  a = WaitNone \/ a = WaitFail ECHILD.

(** An answer that does not report the main child. *)
Definition other_descendant (pid : Z) (a : wait_ret) : Prop :=
  forall p st, a = WaitReaped p st -> Z.pos p <> pid.

(** A collected descendant other than the main child. *)
Definition reaped_other (pid : Z) (a : wait_ret) : Prop :=
  exists p st, a = WaitReaped p st /\ Z.pos p <> pid.

(** Calling [reap_zombies] [n] times in a row, handing the recorded code
    from one call to the next; the result lists the values returned. *)
Fixpoint reap_repeatedly (n : nat) (child_pid : Z) (child_exitcode : Z)
  : M (list Z * Z) :=
  match n with
  | O => ret ([], child_exitcode)
  | S n' =>
    '(r, child_exitcode) <- reap_zombies child_pid child_exitcode ;;
    '(rs, child_exitcode) <- reap_repeatedly n' child_pid child_exitcode ;;
    ret (r :: rs, child_exitcode)
  end.

(** What an idle pass may leave in the trace: a [waitpid] that collected
    nothing, and trace-level diagnostics. *)
Definition idle_event (e : event) : Prop :=
  match e with
  | EvWaitpid r _ => r = 0 \/ r = -1
  | EvLog TRACE _ => True
  | _ => False
  end.

(** ** SignalMaskManager *)

Definition no_fault (f : fault) : bool :=
  match f with None => true | Some _ => false end.

(** None of the mask operations [prepare_sigmask] performs is going to
    fail: the [sigfillset], the seven [sigdelset] and the [sigprocmask]. *)
Definition mask_setup_ok (w : World) : bool :=
  no_fault (hd None (env_sigfillset w)) &&
  forallb no_fault (firstn (List.length ignore_signals) (env_sigdelset w)) &&
  no_fault (hd None (env_sigprocmask w)).

(** The mask tini runs with: everything but the program error signals. *)
Definition parent_mask : sigset :=
  fold_left (fun set sig => Z.clearbit set (sig - 1)) ignore_signals full_sigset.

(** The world right after a successful [prepare_sigmask]. *)
Definition after_mask_setup (w : World) : World :=
  set_trace (trace w ++ [EvSigprocmask SIG_SETMASK parent_mask])
    (set_procmask parent_mask
       (set_env_sigprocmask (tl (env_sigprocmask w))
          (set_env_sigdelset
             (skipn (List.length ignore_signals) (env_sigdelset w))
             (set_env_sigfillset (tl (env_sigfillset w)) w)))).

(** [w'] differs from [w] at most in the trace, [errno] and the pending
    answers of the signal-set operations: the installed mask and everything
    the later steps of [main] read are untouched. *)
Definition mask_failure_frame (w w' : World) : Prop :=
  w' = set_trace (trace w') (set_errno (errno w')
         (set_env_sigprocmask (env_sigprocmask w')
            (set_env_sigdelset (env_sigdelset w')
               (set_env_sigfillset (env_sigfillset w') w)))).

(** ** SupervisionLoop: the order of the steps, read off a trace *)

(** Where a turn of the loop stands. *)
Inductive phase : Type :=
| AtLoopHead      (* the loop has not started *)
| Waited          (* sigtimedwait was called in this turn *)
| Forwarded       (* ... and the signal was passed on with kill *)
| Reaping.        (* waitpid was called in this turn *)

(** A turn is one [sigtimedwait], then at most one [kill], then one or
    more [waitpid]; the next [sigtimedwait] opens the next turn.
    Diagnostics may come anywhere; nothing else may happen. *)
Definition phase_step (ph : phase) (e : event) : option phase :=
  match e with
  | EvLog _ _ => Some ph
  | EvSigtimedwait _ _ =>
    match ph with
    | AtLoopHead | Reaping => Some Waited
    | _ => None
    end
  | EvKill _ _ =>
    match ph with
    | Waited => Some Forwarded
    | _ => None
    end
  | EvWaitpid _ _ =>
    match ph with
    | Waited | Forwarded | Reaping => Some Reaping
    | AtLoopHead => None
    end
  | _ => None
  end.

Fixpoint loop_order (ph : phase) (evs : list event) : option phase :=
  match evs with
  | [] => Some ph
  | e :: evs' =>
    match phase_step ph e with
    | Some ph' => loop_order ph' evs'
    | None => None
    end
  end.

(** Number of [sigtimedwait] calls, that is of turns started. *)
Definition turns (tr : list event) : nat :=
  List.length (filter (fun e => match e with
                                | EvSigtimedwait _ _ => true
                                | _ => false
                                end) tr).

(** ** Invocation interface *)

(** The answers of [getopt] left once the leading [-v] options are read. *)
Fixpoint skip_verbose (q : list (Z * Z)) : list (Z * Z) :=
  match q with
  | (c, oi) :: q' => if c =? ch "v" then skip_verbose q' else q
  | [] => []
  end.

(** [w'] differs from [w] at most in what option parsing touches: the
    trace, [verbosity], [optind], [errno] and the pending answers of
    [getopt]. *)
Definition parse_frame (w w' : World) : Prop :=
  w' = set_trace (trace w') (set_verbosity (verbosity w')
         (set_optind (optind w') (set_errno (errno w')
            (set_env_getopt (env_getopt w')
               (set_env_argv (env_argv w') w))))).

(** The array behind [argv] once [getopt] has been called [k] times. *)
Definition argv_after (k : nat) (w : World) (argv : list string)
  : list string :=
  last (firstn k (env_argv w)) argv.

(** Events option parsing may leave in the trace. *)
Definition is_parse_event (e : event) : bool :=
  match e with
  | EvGetopt _ | EvUsage _ _ | EvLog FATAL _ => true
  | _ => false
  end.

(** What [parse_args] does once [getopt] has reported the end of the
    options with [optind = oi] and left [argv] behind. *)
Definition after_options (argc : Z) (argv : list string) (oi : Z)
    (w : World) (r : Z) (args : list string) (evs : list event) : Prop :=
  match env_calloc w with
  | Some _ => r = 1 /\ logged_fatal evs = true /\ usages evs = []
  | None =>
    logged_fatal evs = false /\
    if argc <=? oi then r = 1 /\ usages evs = [Stderr]
    else r = 0 /\ usages evs = [] /\
         args = copy_args argv oi (Z.to_nat (argc - oi))
  end.

(** The values [getopt] returned. *)
Definition getopts (tr : list event) : list Z :=
  flat_map (fun e => match e with EvGetopt c => [c] | _ => [] end) tr.

(** A [-v] option reported by [getopt]. *)
Definition is_verbose_option (a : Z * Z) : Prop := fst a = ch "v".

(** ** Sample runs *)

(** [tini sleep]: a timeout, then SIGTERM for tini, then SIGCHLD; the reaper
    finds an orphan, then the main child (pid 42) killed by signal 15. *)
Definition demo_argv : list string := ["tini"%string; "sleep"%string].

Definition demo_world : World :=
  mkWorld 0 0 1 0 [] [] [] [] [(-1, 1)] None (ForkParent 42) None
    [StwFail EAGAIN; StwSignal 15; StwSignal 17] []
    [WaitNone; WaitNone; WaitReaped 7 0; WaitReaped 42 15; WaitNone] [].

(** [tini -v -h]. *)
Definition help_argv : list string :=
  ["tini"%string; "-v"%string; "-h"%string].

Definition help_world : World :=
  mkWorld 0 0 1 0 [] [] [] [] [(ch "v", 2); (ch "h", 3)] None
    (ForkParent 42) None [] [] [] [].

(** A process with live children, none of which has terminated. *)
Definition idle_world : World :=
  mkWorld 0 0 1 0 [] [] [] [] [] None (ForkParent 42) None [] []
    [WaitNone; WaitFail ECHILD; WaitNone; WaitReaped 42 0] [].

(** [tini sleep] where [waitpid] reports pid 42 twice in one pass: first as
    exited with code 0, then as killed by signal 15. *)
Definition rereport_world : World :=
  mkWorld 0 0 1 0 [] [] [] [] [(-1, 1)] None (ForkParent 42) None [] []
    [WaitReaped 42 0; WaitReaped 42 15; WaitNone] [].

(** ** More readings of a trace *)

(** The programs [execvp] was called with, as (file, argument vector). *)
Definition execs (tr : list event) : list (string * list string) :=
  flat_map (fun e => match e with EvExecvp f a => [(f, a)] | _ => [] end) tr.

(** The masks installed with [sigprocmask], as (how, set). *)
Definition mask_changes (tr : list event) : list (Z * sigset) :=
  flat_map (fun e => match e with
                     | EvSigprocmask h s => [(h, s)]
                     | _ => []
                     end) tr.

(** The signals [sigtimedwait] dequeued. *)
Definition received (tr : list event) : list Z :=
  flat_map (fun e => match e with
                     | EvSigtimedwait _ r => if 0 <? r then [r] else []
                     | _ => []
                     end) tr.

(** The sets [sigtimedwait] was called with. *)
Definition waited_sets (tr : list event) : list sigset :=
  flat_map (fun e => match e with
                     | EvSigtimedwait s _ => [s]
                     | _ => []
                     end) tr.

(** The descendants [waitpid] collected, as (pid, status). *)
Definition collected (tr : list event) : list (Z * Z) :=
  flat_map (fun e => match e with
                     | EvWaitpid r st => if 0 <? r then [(r, st)] else []
                     | _ => []
                     end) tr.

(** The diagnostics written, as (level, format). *)
Definition logs (tr : list event) : list (level * string) :=
  flat_map (fun e => match e with EvLog l f => [(l, f)] | _ => [] end) tr.

(** The verbosity a PRINT_xxx macro of level [l] has to see exceeded; FATAL
    is not gated. *)
Definition threshold (l : level) : option Z :=
  match l with
  | FATAL => None
  | WARN => Some 0
  | INFO => Some 1
  | DEBUG => Some 2
  | TRACE => Some 3
  end.

(** The world after [getopt] has reported the [-v] options [vs]. *)
Definition after_verbose (vs rest : list (Z * Z)) (w : World) : World :=
  set_trace (trace w ++ map (fun a => EvGetopt (fst a)) vs)
    (set_env_getopt rest
       (set_env_argv (skipn (List.length vs) (env_argv w))
          (set_optind (last (map snd vs) (optind w))
             (set_verbosity (verbosity w + Z.of_nat (List.length vs)) w)))).

(** The (pid, status) pair of a collected descendant. *)
Definition reaped_pair (a : wait_ret) : list (Z * Z) :=
  match a with
  | WaitReaped p st => [(Z.pos p, st)]
  | _ => []
  end.

(** A signal answer that is not fatal to [wait_and_forward_signal]. *)
Definition calm_signal (a : stw_ret) : Prop :=
  match a with
  | StwSignal _ => True
  | StwFail e => e = EAGAIN \/ e = EINTR
  end.

(** An answer of [kill] that is not fatal to [wait_and_forward_signal]. *)
Definition calm_kill (f : fault) : Prop :=
  match f with
  | None => True
  | Some e => e = ESRCH
  end.

(** The environment never answers with an error that is fatal to the
    signal forwarder. *)
Definition calm (w : World) : Prop :=
  Forall calm_signal (env_sigtimedwait w) /\ Forall calm_kill (env_kill w).

(** The signals tini passes on: everything but SIGCHLD. *)
Definition forwardable (sig : Z) : bool := negb (sig =? SIGCHLD).

(** An answer of [waitpid] that neither reports the main child nor is
    fatal to the reaper. *)
Definition harmless (pid : Z) (a : wait_ret) : Prop :=
  match a with
  | WaitReaped p _ => Z.pos p <> pid
  | WaitNone => True
  | WaitFail e => e = ECHILD
  end.

(** The rest of a pass ends normally and reports only other descendants:
    collected descendants other than the main child, up to an answer that
    reports no termination or to the end of the script. *)
Definition pass_ends_well (pid : Z) (q : list wait_ret) : Prop :=
  Forall (reaped_other pid) q \/
  exists more a rest,
    q = more ++ a :: rest /\ Forall (reaped_other pid) more /\ quiescent a.

(** ** Diagnostics and verbosity *)

(** A diagnostic line of level [l] may be written at verbosity [v]. *)
Definition log_enabled (v : Z) (e : event) : Prop :=
  match e with
  | EvLog l _ =>
    match threshold l with
    | Some t => t < v
    | None => True
    end
  | _ => True
  end.

(** A computation never lowers the verbosity and only writes diagnostics
    that the verbosity it ends with enables. *)
Definition well_gated {A} (m : M A) : Prop :=
  forall w o w',
    m w = (o, w') ->
    verbosity w <= verbosity w' /\
    exists evs,
      trace w' = trace w ++ evs /\
      Forall (log_enabled (verbosity w')) evs.

(** ** More sample runs *)

(** [tini sleep -v 1] seen from the forked child, with GNU [getopt]: the
    first call skips [sleep] and reports [-v]; the second moves [-v] in
    front of [sleep], finds no further option and leaves [optind] at
    [sleep].  The process was started with SIGHUP and SIGQUIT blocked. *)
Definition child_argv : list string :=
  ["tini"%string; "sleep"%string; "-v"%string; "1"%string].

Definition child_world : World :=
  mkWorld 0 0 1 5 [] [] [] [] [(ch "v", 3); (-1, 2)] None ForkChild None
    [] [] []
    [["tini"%string; "sleep"%string; "-v"%string; "1"%string];
     ["tini"%string; "-v"%string; "sleep"%string; "1"%string]].

(** Three descendants have terminated, the main child (pid 42, exit status
    1) among them; a fourth terminates later. *)
Definition busy_world : World :=
  mkWorld 0 0 1 0 [] [] [] [] [] None (ForkParent 42) None [] []
    [WaitReaped 7 0; WaitReaped 42 256; WaitReaped 9 9; WaitNone;
     WaitReaped 11 0] [].

(** ** Proof tools *)

#[local] Arguments SIGCHLD : simpl never.
#[local] Arguments ESRCH : simpl never.
#[local] Arguments EINTR : simpl never.
#[local] Arguments ECHILD : simpl never.
#[local] Arguments EAGAIN : simpl never.
#[local] Arguments EINVAL : simpl never.
#[local] Arguments Z.eqb : simpl never.
#[local] Arguments Z.ltb : simpl never.
#[local] Arguments Z.leb : simpl never.
#[local] Arguments set_verbosity _ _ /.
#[local] Arguments set_errno _ _ /.
#[local] Arguments set_optind _ _ /.
#[local] Arguments set_procmask _ _ /.
#[local] Arguments set_trace _ _ /.
#[local] Arguments set_env_sigfillset _ _ /.
#[local] Arguments set_env_sigdelset _ _ /.
#[local] Arguments set_env_sigprocmask _ _ /.
#[local] Arguments set_env_getopt _ _ /.
#[local] Arguments set_env_sigtimedwait _ _ /.
#[local] Arguments set_env_kill _ _ /.
#[local] Arguments set_env_waitpid _ _ /.
#[local] Arguments set_env_argv _ _ /.

Ltac unfold_prims :=
  unfold sigfillset, sigdelset, sigprocmask, getopt, calloc, fork, execvp,
    sigtimedwait, kill, waitpid_nohang, PRINT_FATAL, PRINT_WARNING,
    PRINT_INFO, PRINT_DEBUG, PRINT_TRACE, print_gated, print_usage in *.

Ltac unfold_monad :=
  unfold bind, ret, get, modify, emit, fail_with, out_of_fuel, replaced in *.

(** Decide the comparisons whose outcome does not depend on a variable. *)
Ltac fold_cmp :=
  repeat match goal with
  | |- context [?a =? ?b] =>
    let v := eval cbv in (a =? b) in
    match v with
    | true => change (a =? b) with true
    | false => change (a =? b) with false
    end
  | |- context [?a <? ?b] =>
    let v := eval cbv in (a <? b) in
    match v with
    | true => change (a <? b) with true
    | false => change (a <? b) with false
    end
  end.

Ltac run := unfold_prims; unfold_monad; cbn; fold_cmp; cbn.

Ltac case_if :=
  match goal with
  | |- context [if ?b then _ else _] =>
    let E := fresh "E" in destruct b eqn:E; cbn; fold_cmp; cbn
  end.

Ltac case_hd :=
  match goal with
  | |- context [hd ?d ?q] =>
    is_var q; destruct q as [|[|] ?]; cbn; fold_cmp; cbn
  end.

Ltac cases := repeat (first [case_hd | case_if]).

(** Turn boolean comparisons in the context into propositions. *)
Ltac zbool :=
  repeat match goal with
  | H : (_ =? _) = true |- _ => apply Z.eqb_eq in H
  | H : (_ =? _) = false |- _ => apply Z.eqb_neq in H
  | H : (_ <? _) = true |- _ => apply Z.ltb_lt in H
  | H : (_ <? _) = false |- _ => apply Z.ltb_ge in H
  | H : (_ <=? _) = true |- _ => apply Z.leb_le in H
  | H : (_ <=? _) = false |- _ => apply Z.leb_gt in H
  end.

(** Break up the hypotheses and discard impossible cases. *)
Ltac inv_all :=
  repeat match goal with
  | H : _ /\ _ |- _ => destruct H
  | H : exists _, _ |- _ => destruct H
  | H : _ \/ _ |- _ => destruct H
  | H : False |- _ => destruct H
  | H : ?a = ?a |- _ => clear H
  | H : _ = _ |- _ => discriminate H
  | H : StwFail _ = StwFail _ |- _ => inversion H; clear H; subst
  | H : StwSignal _ = StwSignal _ |- _ => inversion H; clear H; subst
  | H : Some _ = Some _ |- _ => inversion H; clear H; subst
  | H : EvLog _ _ = EvLog _ _ |- _ => inversion H; clear H; subst
  end.


#[local] Arguments WEXITSTATUS : simpl never.
#[local] Arguments WTERMSIG : simpl never.
#[local] Arguments WIFEXITED : simpl never.
#[local] Arguments WIFSIGNALED : simpl never.
#[local] Arguments Z.add : simpl never.
#[local] Arguments Z.sub : simpl never.
#[local] Arguments Z.max : simpl never.
#[local] Arguments Z.clearbit : simpl never.
#[local] Arguments Z.lor : simpl never.
#[local] Arguments Z.ldiff : simpl never.
#[local] Arguments Z.of_nat : simpl never.
#[local] Arguments Z.to_nat : simpl never.
#[local] Arguments full_sigset : simpl never.
#[local] Arguments parent_mask : simpl never.
#[local] Arguments ignore_signals : simpl never.
#[local] Arguments ch : simpl never.
#[local] Arguments copy_args : simpl never.

Lemma logged_fatal_app a b :
  logged_fatal (a ++ b) = logged_fatal a || logged_fatal b.
Proof. apply existsb_app. Qed.

Lemma kills_app a b : kills (a ++ b) = kills a ++ kills b.
Proof. apply flat_map_app. Qed.

Lemma forks_app a b : forks (a ++ b) = forks a ++ forks b.
Proof. apply flat_map_app. Qed.

Lemma usages_app a b : usages (a ++ b) = usages a ++ usages b.
Proof. apply flat_map_app. Qed.

Lemma reaped_statuses_app pid a b :
  reaped_statuses pid (a ++ b) = reaped_statuses pid a ++ reaped_statuses pid b.
Proof. apply flat_map_app. Qed.

Lemma last_status_app l s : last_status (l ++ [s]) = Some s.
Proof. unfold last_status. rewrite rev_app_distr. reflexivity. Qed.

Lemma last_status_cons s l :
  last_status (s :: l) = match last_status l with Some t => Some t | None => Some s end.
Proof.
  unfold last_status. cbn. destruct (rev l) eqn:E; reflexivity.
Qed.

Lemma last_status_nil l : last_status l = None <-> l = [].
Proof.
  unfold last_status. split.
  - destruct (rev l) eqn:E; [|discriminate].
    intros _. apply (f_equal (@rev Z)) in E. rewrite rev_involutive in E. exact E.
  - intros ->. reflexivity.
Qed.

(** ** Wait statuses *)

Lemma WEXITSTATUS_range st : 0 <= WEXITSTATUS st <= 255.
Proof.
  unfold WEXITSTATUS. rewrite Z.shiftr_land.
  change (Z.shiftr 65280 8) with (Z.ones 8).
  rewrite Z.land_ones by lia.
  pose proof (Z.mod_pos_bound (Z.shiftr st 8) (2 ^ 8)). lia.
Qed.

Lemma WTERMSIG_range st : 0 <= WTERMSIG st <= 127.
Proof.
  unfold WTERMSIG. change (Z.land st 127) with (Z.land st (Z.ones 7)).
  rewrite Z.land_ones by lia.
  pose proof (Z.mod_pos_bound st (2 ^ 7)). lia.
Qed.

Lemma WIFSIGNALED_spec st :
  WIFSIGNALED st = true <-> 1 <= WTERMSIG st <= 126.
Proof.
  unfold WIFSIGNALED, signed_char. fold (WTERMSIG st).
  pose proof (WTERMSIG_range st) as R.
  rewrite Z.ltb_lt, Z.shiftr_div_pow2 by lia. change (2 ^ 1) with 2.
  destruct (WTERMSIG st + 1 <? 128) eqn:E; zbool.
  - split; intros H.
    + assert (WTERMSIG st <> 0)
        by (intros Z0; rewrite Z0 in H; vm_compute in H; discriminate).
      lia.
    + apply Z.div_str_pos. lia.
  - split; intros H; [|lia].
    assert (WTERMSIG st = 127) as Z0 by lia.
    rewrite Z0 in H. vm_compute in H. discriminate.
Qed.



Lemma outcome_of_range st code :
  outcome_of st = Some code -> 0 <= code <= 255.
Proof.
  unfold outcome_of.
  destruct (WIFEXITED st); [intros [= <-]; apply WEXITSTATUS_range|].
  destruct (WIFSIGNALED st) eqn:S; [|discriminate].
  intros H. assert (code = 128 + WTERMSIG st) as -> by congruence.
  apply WIFSIGNALED_spec in S. lia.
Qed.

Lemma outcome_of_set st code : outcome_of st = Some code -> code <> -1.
Proof. intros H. apply outcome_of_range in H. lia. Qed.


(** ** SignalForwarder: [wait_and_forward_signal] *)

(** C3. Whatever [sigtimedwait] observes, the signals that
    [wait_and_forward_signal] sends are: none for SIGCHLD (the signal is
    consumed from the queue and dropped), none when the wait fails, and for
    any other signal exactly one [kill], carrying that signal number and
    addressed to the main child's pid. *)
Theorem forward_exactly_to_main_child :
  forall (parent_sigset : sigset) (child_pid : Z) (w : World),
  exists r w' evs,
    wait_and_forward_signal parent_sigset child_pid w = (Normal r, w') /\
    trace w' = trace w ++ evs /\
    env_sigtimedwait w' = tl (env_sigtimedwait w) /\
    kills evs =
      match next_signal w with
      | StwSignal s =>
        if Z.pos s =? SIGCHLD then [] else [(child_pid, Z.pos s)]
      | StwFail _ => []
      end.
Proof.
  intros ps pid w. unfold wait_and_forward_signal, next_signal.
  destruct w as [v e o pm tr q1 q2 q3 q4 f1 f2 f3 qs qk qw qa].
  run. cases.
  all: eexists _, _, _; (split; [reflexivity|]); cbn; rewrite <- ?app_assoc;
    (split; [reflexivity|]); split; try reflexivity.
  all: discriminate.
Qed.

(** C4. [wait_and_forward_signal] returns 1 exactly when the wait fails with
    an error other than EAGAIN and EINTR, or the forwarding [kill] fails
    with an error other than ESRCH; it returns 0 otherwise, and a FATAL line
    is written exactly in the failing case.  A timeout or an interrupt does
    nothing but record the error number; forwarding to a child that is gone
    (ESRCH) returns 0 after a warning that is shown at verbosity 1 or more. *)
Theorem wait_and_forward_fatal_iff :
  forall (parent_sigset : sigset) (child_pid : Z) (w : World),
  exists r w' evs,
    wait_and_forward_signal parent_sigset child_pid w = (Normal r, w') /\
    trace w' = trace w ++ evs /\
    (r = 0 \/ r = 1) /\
    (r = 1 <-> wait_failed_fatally w \/ forward_failed_fatally w) /\
    (logged_fatal evs = true <-> r = 1) /\
    (forall e, next_signal w = StwFail e -> e = EAGAIN \/ e = EINTR ->
       r = 0 /\
       w' = set_trace (trace w ++ [EvSigtimedwait parent_sigset (-1)])
              (set_errno e
                 (set_env_sigtimedwait (tl (env_sigtimedwait w)) w))) /\
    (forall s, next_signal w = StwSignal s -> Z.pos s <> SIGCHLD ->
       next_kill w = Some ESRCH ->
       r = 0 /\
       kills evs = [(child_pid, Z.pos s)] /\
       (In (EvLog WARN "Child was dead when forwarding signal") evs <->
        0 < verbosity w)).
Proof.
  intros ps pid w.
  unfold wait_and_forward_signal, wait_failed_fatally, forward_failed_fatally,
    next_signal, next_kill.
  destruct w as [v e o pm tr q1 q2 q3 q4 f1 f2 f3 qs qk qw qa].
  run. cases.
  all: eexists _, _, _; (split; [reflexivity|]); cbn; rewrite <- ?app_assoc;
    (split; [reflexivity|]); zbool.
  all: repeat split; intros; inv_all; zbool; try congruence; try lia;
    try reflexivity; eauto 10.
  all: cbn in *; intuition (try discriminate; try lia).
Qed.

(** ** ZombieReaper: [reap_zombies] *)

Ltac pass_tac :=
  zbool;
  first
    [ solve [eapply pass_other_descendant; eauto]
    | solve [eapply pass_main_child;
             [eassumption
             |unfold outcome_of;
              repeat match goal with
                     | H : WIFEXITED _ = _ |- _ => rewrite H
                     | H : WIFSIGNALED _ = _ |- _ => rewrite H
                     end; reflexivity
             |eassumption]]
    | solve [eapply pass_main_child_unknown;
             [eassumption
             |unfold outcome_of;
              repeat match goal with
                     | H : WIFEXITED _ = _ |- _ => rewrite H
                     | H : WIFSIGNALED _ = _ |- _ => rewrite H
                     end; reflexivity]]
    | solve [subst; constructor; auto] ].

(** One turn of the loop on each shape of answer; [reap_loop] then goes on
    with the rest of the script. *)
Lemma reap_loop_spec n :
  forall pid c st w,
    (List.length (env_waitpid w) < n)%nat ->
    exists r c' w' evs,
      reap_loop n pid c st w = (Normal (r, c'), w') /\
      reaper_pass pid c (env_waitpid w) r c' (env_waitpid w') /\
      trace w' = trace w ++ evs /\
      reap_frame w w' /\
      (exists ret s0 evs', evs = EvWaitpid ret s0 :: evs') /\
      forallb is_reap_event evs = true /\
      (logged_fatal evs = true <-> r = 1) /\
      (0 < pid -> reaped_statuses pid evs = [] -> c' = c) /\
      (0 < pid -> r = 0 -> forall s,
         last_status (reaped_statuses pid evs) = Some s ->
         outcome_of s = Some c').
Proof.
  induction n as [|n IH]; intros pid c st w Hlen; [cbn in Hlen; lia|].
  destruct w as [v e o pm tr q1 q2 q3 q4 f1 f2 f3 qs qk qw qa].
  cbn [env_waitpid] in Hlen |- *. cbn [reap_loop].
  destruct qw as [|[p s| |e'] qw]; run.
  2: { cases.
       all: match goal with
            | |- context [reap_loop _ ?p1 ?c1 ?s1 ?w1] =>
              destruct (IH p1 c1 s1 w1)
                as (r & c' & w' & evs & Hrun & Hpass & Htr & Hfr & Hfirst &
                    Hall & Hfatal & Hnil & Hlast);
              [cbn in *; lia|]; rewrite Hrun; cbn in Hpass, Htr, Hfr
            | _ => idtac
            end.
       all: eexists _, _, _, _; (split; [reflexivity|]).
       all: split; [pass_tac|].
       all: split; [cbn; rewrite ?Htr, <- ?app_assoc; reflexivity|].
       all: split; [first [exact Hfr | reflexivity]|].
       all: split; [cbn; eauto|].
       all: split; [cbn; rewrite ?forallb_app; cbn; auto|].
       all: split; [cbn; rewrite ?logged_fatal_app; cbn; intuition congruence|].
       all: cbn [app reaped_statuses flat_map];
         repeat match goal with
                | H : (Z.pos _ =? _) = _ |- _ => rewrite H
                end; cbn [app]; try fold (reaped_statuses pid evs).
       all: split; intros Hpid; [intros Hn | intros Hr s0 Hs0];
         try discriminate; try (apply Hnil; assumption);
         try (eapply Hlast; eassumption).
       all: rewrite last_status_cons in Hs0;
         destruct (last_status (reaped_statuses pid evs)) eqn:L;
         [assert (s0 = z) as -> by congruence; eapply Hlast; eauto|].
       all: apply last_status_nil in L; rewrite (Hnil Hpid L).
       all: assert (s0 = s) as -> by congruence.
       all: unfold outcome_of;
         repeat match goal with
                | H : WIFEXITED _ = _ |- _ => rewrite H
                | H : WIFSIGNALED _ = _ |- _ => rewrite H
                end; reflexivity. }
  all: cases.
  all: eexists _, _, _, _; (split; [reflexivity|]).
  all: split; [pass_tac|].
  all: split; [cbn; rewrite <- ?app_assoc; reflexivity|].
  all: split; [reflexivity|].
  all: split; [cbn; eauto|].
  all: split; [reflexivity|].
  all: split; [cbn; intuition congruence|].
  all: split; [reflexivity|].
  all: intros Hpid Hr s0; try discriminate.
  all: cbn [app reaped_statuses flat_map].
  all: match goal with
       | H : 0 < ?q |- context [?k =? ?q] =>
         destruct (Z.eqb_spec k q); [exfalso; lia|]
       end.
  all: discriminate.
Qed.

Lemma reap_zombies_spec pid c w :
  exists r c' w' evs,
    reap_zombies pid c w = (Normal (r, c'), w') /\
    reaper_pass pid c (env_waitpid w) r c' (env_waitpid w') /\
    trace w' = trace w ++ evs /\
    reap_frame w w' /\
    (exists ret s0 evs', evs = EvWaitpid ret s0 :: evs') /\
    forallb is_reap_event evs = true /\
    (logged_fatal evs = true <-> r = 1) /\
    (0 < pid -> reaped_statuses pid evs = [] -> c' = c) /\
    (0 < pid -> r = 0 -> forall s,
       last_status (reaped_statuses pid evs) = Some s ->
       outcome_of s = Some c').
Proof.
  unfold reap_zombies, bind, get. apply reap_loop_spec. lia.
Qed.

Lemma outcome_of_none st :
  outcome_of st = None <-> WIFEXITED st = false /\ WIFSIGNALED st = false.
Proof.
  unfold outcome_of.
  destruct (WIFEXITED st), (WIFSIGNALED st); intuition discriminate.
Qed.

Lemma outcome_of_some st code :
  outcome_of st = Some code -> WIFEXITED st = true \/ WIFSIGNALED st = true.
Proof.
  unfold outcome_of.
  destruct (WIFEXITED st), (WIFSIGNALED st); intuition discriminate.
Qed.

Lemma fatal_pass_nil pid : ~ fatal_pass pid [].
Proof. intros (pre & a & post & H & _). destruct pre; discriminate. Qed.

Lemma fatal_pass_cons pid a q :
  fatal_pass pid (a :: q) <->
  fatal_answer pid a \/ (benign_reap pid a /\ fatal_pass pid q).
Proof.
  split.
  - intros (pre & b & post & E & B & F). destruct pre as [|x pre]; cbn in E.
    + injection E as -> ->. left. exact F.
    + injection E as -> ->. right. inversion B; subst.
      split; [assumption|]. exists pre, b, post. auto.
  - intros [F | (B & pre & b & post & -> & Bs & F)].
    + exists [], a, q. auto.
    + exists (a :: pre), b, post. auto.
Qed.

Lemma reaper_pass_return pid c q r c' q' :
  reaper_pass pid c q r c' q' -> r = 0 \/ r = 1.
Proof. induction 1; auto. Qed.

Lemma reaper_pass_fatal_iff pid c q r c' q' :
  reaper_pass pid c q r c' q' -> (r = 1 <-> fatal_pass pid q).
Proof.
  intros H.
  induction H as [c|c q|c q|c e q He|c p st q r c' q' Hp Hpass IH|c p st code q r c' q' Hp Ho Hpass IH|c p st q Hp Ho];
    rewrite ?fatal_pass_cons; cbn.
  - split; [discriminate|]. intros F. destruct (fatal_pass_nil _ F).
  - intuition discriminate.
  - intuition discriminate.
  - intuition.
  - rewrite IH. intuition.
  - rewrite IH. apply outcome_of_some in Ho.
    split; [tauto|]. intros [(_ & E1 & E2) | (_ & F)]; [|exact F].
    destruct Ho; congruence.
  - apply outcome_of_none in Ho. tauto.
Qed.

Lemma reaper_pass_normal_end pid c q r c' q' :
  reaper_pass pid c q r c' q' ->
  forall pre a post,
    q = pre ++ a :: post -> Forall (benign_reap pid) pre -> quiescent a ->
    r = 0 /\ q' = post.
Proof.
  unfold quiescent. intros H.
  induction H as [c|c q|c q|c e q He|c p st q r c' q' Hp Hpass IH|c p st code q r c' q' Hp Ho Hpass IH|c p st q Hp Ho];
    intros pre a post E B Q;
    (destruct pre as [|x pre]; cbn in E;
     [ injection E as <- <- || discriminate E
     | try discriminate E; injection E as <- ->; inversion B; subst ]).
  all: try solve [destruct Q; discriminate].
  all: try solve [auto].
  all: try solve [match goal with H : benign_reap _ _ |- _ => destruct H end].
  all: try solve [eapply IH; eauto].
  - destruct Q as [Q|Q]; [discriminate|]. congruence.
  - apply outcome_of_none in Ho. cbn in H1.
    destruct (H1 eq_refl); intuition congruence.
Qed.

Lemma reaper_pass_all_benign pid c q r c' q' :
  reaper_pass pid c q r c' q' ->
  Forall (benign_reap pid) q -> r = 0 /\ q' = [].
Proof.
  intros H.
  induction H as [c|c q|c q|c e q He|c p st q r c' q' Hp Hpass IH|c p st code q r c' q' Hp Ho Hpass IH|c p st q Hp Ho];
    intros B; auto; inversion B; subst; cbn in *; try tauto.
  apply outcome_of_none in Ho.
  match goal with H : _ -> _ \/ _ |- _ => destruct (H eq_refl) end;
    intuition congruence.
Qed.

Lemma reaper_pass_others pid c q r c' q' :
  reaper_pass pid c q r c' q' ->
  Forall (other_descendant pid) q -> c' = c.
Proof.
  intros H.
  induction H as [c|c q|c q|c e q He|c p st q r c' q' Hp Hpass IH|c p st code q r c' q' Hp Ho Hpass IH|c p st q Hp Ho];
    intros B; auto; inversion B as [|? ? B1 B2]; subst; auto.
  destruct (B1 _ _ eq_refl eq_refl).
Qed.

(** C5. [reap_zombies] always returns, with 0 or 1.  It returns 1 exactly
    when the pass meets a fatal answer: [waitpid] failing with an error other
    than ECHILD, or a status of the main child that is neither a normal exit
    nor a termination by signal; a FATAL line is written exactly then.  A
    pass that reaches "nothing terminated" or ECHILD after benign reaps ends
    there with 0, and so does a pass that exhausts the pending answers. *)
Theorem reap_zombies_fatal_iff :
  forall (child_pid child_exitcode : Z) (w : World),
  exists r c' w' evs,
    reap_zombies child_pid child_exitcode w = (Normal (r, c'), w') /\
    trace w' = trace w ++ evs /\
    (r = 0 \/ r = 1) /\
    (r = 1 <-> fatal_pass child_pid (env_waitpid w)) /\
    (logged_fatal evs = true <-> r = 1) /\
    (forall pre a post,
       env_waitpid w = pre ++ a :: post ->
       Forall (benign_reap child_pid) pre -> quiescent a ->
       r = 0 /\ env_waitpid w' = post) /\
    (Forall (benign_reap child_pid) (env_waitpid w) ->
     r = 0 /\ env_waitpid w' = []).
Proof.
  intros pid c w.
  destruct (reap_zombies_spec pid c w)
    as (r & c' & w' & evs & Hrun & Hpass & Htr & _ & _ & _ & Hfatal & _).
  exists r, c', w', evs. repeat split; try tauto.
  - eapply reaper_pass_return; eauto.
  - apply (reaper_pass_fatal_iff _ _ _ _ _ _ Hpass).
  - apply (reaper_pass_fatal_iff _ _ _ _ _ _ Hpass).
  - eapply reaper_pass_normal_end; eauto.
  - eapply reaper_pass_normal_end; eauto.
  - eapply reaper_pass_all_benign; eauto.
  - eapply reaper_pass_all_benign; eauto.
Qed.

Lemma reaper_pass_last_report pid c q r c' q' :
  reaper_pass pid c q r c' q' ->
  forall pre p st code post,
    q = pre ++ WaitReaped p st :: post ->
    Forall (benign_reap pid) pre ->
    Z.pos p = pid -> outcome_of st = Some code ->
    Forall (other_descendant pid) post ->
    c' = code.
Proof.
  intros H.
  induction H as [c|c q|c q|c e q He|c p st q r c' q' Hp Hpass IH|c p st code q r c' q' Hp Ho Hpass IH|c p st q Hp Ho];
    intros pre p0 st0 code0 post E B Hp0 Ho0 A;
    (destruct pre as [|x pre]; cbn in E;
     [ injection E as <- <- <- || discriminate E
     | try discriminate E; injection E as <- ->;
       inversion B as [|? ? B1 B2]; subst ]).
  all: try solve [destruct B1].
  all: try solve [congruence].
  all: try solve [eapply IH; eauto].
  - assert (code = code0) as -> by congruence.
    eapply reaper_pass_others; eauto.
  - apply outcome_of_none in Ho. cbn in B1.
    destruct (B1 eq_refl); intuition congruence.
Qed.

(** C6. The recorded exit code is written when, and only when, a reap
    reports the pid of the main child.  A pass whose answers report only
    other descendants returns the code it was given, set or unset.  In a
    pass that collects the main child's pid, the code the pass leaves is the
    outcome of the last status reported for that pid, whatever was recorded
    or reported for it before; it is different from the unset value -1, and
    descendants with other pids reaped afterwards do not change it. *)
Theorem exit_outcome_set_by_main_child_only :
  forall (child_pid child_exitcode : Z) (w : World),
  exists r c' w',
    reap_zombies child_pid child_exitcode w = (Normal (r, c'), w') /\
    (Forall (other_descendant child_pid) (env_waitpid w) ->
     c' = child_exitcode) /\
    (forall pre p st code post,
       env_waitpid w = pre ++ WaitReaped p st :: post ->
       Forall (benign_reap child_pid) pre ->
       Z.pos p = child_pid -> outcome_of st = Some code ->
       Forall (other_descendant child_pid) post ->
       c' = code /\ code <> -1).
Proof.
  intros pid c w.
  destruct (reap_zombies_spec pid c w)
    as (r & c' & w' & evs & Hrun & Hpass & _).
  exists r, c', w'. split; [exact Hrun|]. split.
  - eapply reaper_pass_others; eauto.
  - intros pre p st code post E B Hp Ho A. split.
    + eapply reaper_pass_last_report; eauto.
    + eapply outcome_of_set; eauto.
Qed.

Lemma reap_zombies_idle pid c w :
  Forall quiescent (firstn 1 (env_waitpid w)) ->
  exists w' evs,
    reap_zombies pid c w = (Normal (0, c), w') /\
    env_waitpid w' = skipn 1 (env_waitpid w) /\
    reap_frame w w' /\
    trace w' = trace w ++ evs /\
    Forall idle_event evs.
Proof.
  unfold reap_zombies, quiescent. intros Q.
  destruct w as [v e o pm tr q1 q2 q3 q4 f1 f2 f3 qs qk qw qa].
  destruct qw as [|a qw]; cbn in Q.
  - run; run. cases.
    all: eexists _, _; (split; [reflexivity|]); cbn;
      rewrite <- ?app_assoc; repeat split; try reflexivity.
    all: repeat (first [apply Forall_cons | apply Forall_nil]); cbn; auto.
  - inversion Q as [|? ? [-> | ->] _]; subst; run; run; cases.
    all: eexists _, _; (split; [reflexivity|]); cbn;
      rewrite <- ?app_assoc; repeat split; try reflexivity.
    all: repeat (first [apply Forall_cons | apply Forall_nil]); cbn; auto.
Qed.

Lemma reap_frame_trans w1 w2 w3 :
  reap_frame w1 w2 -> reap_frame w2 w3 -> reap_frame w1 w3.
Proof.
  unfold reap_frame. intros H1 H2. rewrite H2. rewrite H1. reflexivity.
Qed.

Lemma reap_frame_refl w : reap_frame w w.
Proof. destruct w. reflexivity. Qed.

(** C7. When the next [n] answers of [waitpid] report no termination,
    [n] calls of [reap_zombies] in a row all return 0 and leave the recorded
    exit code as it was (unset stays unset).  Apart from consuming those [n]
    answers, setting [errno] and writing to the trace, the state of the
    process is unchanged, and the trace receives only the [waitpid] calls
    that collected nothing and trace-level diagnostics. *)
Theorem reap_idempotent_when_idle :
  forall (n : nat) (child_pid child_exitcode : Z) (w : World),
    Forall quiescent (firstn n (env_waitpid w)) ->
    exists w' evs,
      reap_repeatedly n child_pid child_exitcode w =
        (Normal (repeat 0 n, child_exitcode), w') /\
      env_waitpid w' = skipn n (env_waitpid w) /\
      reap_frame w w' /\
      trace w' = trace w ++ evs /\
      Forall idle_event evs.
Proof.
  induction n as [|n IH]; intros pid c w Q.
  - exists w, []. cbn. rewrite app_nil_r.
    repeat split; auto using reap_frame_refl.
  - destruct (reap_zombies_idle pid c w) as (w1 & evs1 & R1 & Q1 & F1 & T1 & I1).
    { destruct (env_waitpid w); cbn in *; [constructor|].
      inversion Q; subst. constructor; [assumption|constructor]. }
    destruct (IH pid c w1) as (w2 & evs2 & R2 & Q2 & F2 & T2 & I2).
    { rewrite Q1. destruct (env_waitpid w); cbn in *.
      - rewrite firstn_nil. constructor.
      - inversion Q; subst. assumption. }
    exists w2, (evs1 ++ evs2).
    cbn [reap_repeatedly]. unfold bind at 1. rewrite R1.
    unfold bind at 1. rewrite R2. unfold ret. cbn [repeat].
    split; [reflexivity|]. split.
    { rewrite Q2, Q1. destruct (env_waitpid w); cbn.
      - apply skipn_nil.
      - reflexivity. }
    split; [eapply reap_frame_trans; eauto|].
    split; [rewrite T2, T1, app_assoc; reflexivity|].
    apply Forall_app. auto.
Qed.

(** ** SignalMaskManager: [prepare_sigmask] *)

Lemma delete_signals_spec sigs :
  forall set w,
    forallb valid_signal sigs = true ->
    if forallb no_fault (firstn (List.length sigs) (env_sigdelset w)) then
      delete_signals sigs set w =
        (Normal (0, fold_left (fun m s => Z.clearbit m (s - 1)) sigs set),
         set_env_sigdelset (skipn (List.length sigs) (env_sigdelset w)) w)
    else
      exists set' w',
        delete_signals sigs set w = (Normal (1, set'), w') /\
        trace w' = trace w ++ [EvLog FATAL "sigdelset failed: '%i'"] /\
        mask_failure_frame w w'.
Proof.
  induction sigs as [|s sigs IH]; intros set w V.
  - cbn. destruct w; reflexivity.
  - cbn in V. apply andb_prop in V as [Vs V].
    cbn [delete_signals]. unfold sigdelset. rewrite Vs.
    destruct w as [v e o pm tr q1 q2 q3 q4 f1 f2 f3 qs qk qw qa].
    destruct q2 as [|[e'|] q2]; run.
    + specialize (IH (Z.clearbit set (s - 1))
        (mkWorld v e o pm tr q1 [] q3 q4 f1 f2 f3 qs qk qw qa) V).
      cbn in IH. rewrite firstn_nil in IH. cbn in IH.
      rewrite IH. rewrite skipn_nil. reflexivity.
    + eexists _, _. split; [reflexivity|]. split; reflexivity.
    + specialize (IH (Z.clearbit set (s - 1))
        (mkWorld v e o pm tr q1 q2 q3 q4 f1 f2 f3 qs qk qw qa) V).
      cbn in IH.
      destruct (forallb no_fault (firstn (List.length sigs) q2)).
      * rewrite IH. reflexivity.
      * destruct IH as (set' & w' & R & T & F). rewrite R.
        eexists _, _. split; [reflexivity|]. split; [exact T|].
        unfold mask_failure_frame in *. cbn in *. exact F.
Qed.

Lemma ignore_signals_valid : forallb valid_signal ignore_signals = true.
Proof. reflexivity. Qed.

Lemma prepare_sigmask_ok p0 c0 w :
  mask_setup_ok w = true ->
  prepare_sigmask p0 c0 w =
    (Normal (0, parent_mask, procmask w), after_mask_setup w).
Proof.
  unfold mask_setup_ok, prepare_sigmask, after_mask_setup, parent_mask.
  destruct w as [v e o pm tr q1 q2 q3 q4 f1 f2 f3 qs qk qw qa].
  cbn [env_sigfillset env_sigdelset env_sigprocmask procmask trace].
  intros H. apply andb_prop in H as [H H3]. apply andb_prop in H as [H1 H2].
  pose proof (delete_signals_spec ignore_signals full_sigset
                (mkWorld v e o pm tr (tl q1) q2 q3 q4 f1 f2 f3 qs qk qw qa)
                ignore_signals_valid) as D.
  cbn [env_sigdelset] in D. rewrite H2 in D.
  unfold sigfillset, bind at 1, bind at 1, bind at 1, get, modify.
  cbn [env_sigfillset set_env_sigfillset verbosity errno optind procmask
       trace env_sigdelset env_sigprocmask env_getopt env_calloc env_fork
       env_execvp env_sigtimedwait env_kill env_waitpid env_argv].
  destruct (hd None q1); [discriminate|].
  unfold ret at 1. change (negb (0 =? 0)) with false. cbv iota.
  unfold bind at 1. rewrite D.
  change (negb (0 =? 0)) with false. cbv iota.
  destruct q3 as [|[e3|] q3]; try discriminate; reflexivity.
Qed.

Lemma prepare_sigmask_fail p0 c0 w :
  mask_setup_ok w = false ->
  exists p w' fmt,
    prepare_sigmask p0 c0 w = (Normal (1, p, c0), w') /\
    trace w' = trace w ++ [EvLog FATAL fmt] /\
    mask_failure_frame w w'.
Proof.
  unfold mask_setup_ok, prepare_sigmask.
  destruct w as [v e o pm tr q1 q2 q3 q4 f1 f2 f3 qs qk qw qa].
  cbn [env_sigfillset env_sigdelset env_sigprocmask procmask trace].
  intros H.
  pose proof (delete_signals_spec ignore_signals full_sigset
                (mkWorld v e o pm tr (tl q1) q2 q3 q4 f1 f2 f3 qs qk qw qa)
                ignore_signals_valid) as D.
  cbn [env_sigdelset] in D.
  unfold sigfillset, bind at 1, bind at 1, bind at 1, get, modify.
  cbn [env_sigfillset set_env_sigfillset verbosity errno optind procmask
       trace env_sigdelset env_sigprocmask env_getopt env_calloc env_fork
       env_execvp env_sigtimedwait env_kill env_waitpid env_argv].
  destruct (hd None q1) as [e1|] eqn:E1.
  { run. eexists _, _, _. split; [reflexivity|]. split; reflexivity. }
  unfold ret at 1. change (negb (0 =? 0)) with false. cbv iota.
  unfold bind at 1.
  destruct (forallb no_fault (firstn (List.length ignore_signals) q2)) eqn:E2.
  - rewrite D. change (negb (0 =? 0)) with false. cbv iota.
    destruct q3 as [|[e3|] q3]; try discriminate.
    run. eexists _, _, _. split; [reflexivity|]. split; reflexivity.
  - destruct D as (set' & w' & R & T & F). rewrite R.
    change (negb (1 =? 0)) with true. cbv iota. unfold ret.
    eexists _, _, _. split; [reflexivity|]. split; [exact T|].
    unfold mask_failure_frame in *. cbn in *. exact F.
Qed.

Lemma testbit_clear_all sigs :
  forall set i,
    Z.testbit (fold_left (fun m s => Z.clearbit m (s - 1)) sigs set) i =
    Z.testbit set i && negb (existsb (fun s => s - 1 =? i) sigs).
Proof.
  induction sigs as [|s sigs IH]; intros set i; cbn [fold_left existsb].
  - rewrite andb_true_r. reflexivity.
  - rewrite IH, Z.clearbit_eqb, negb_orb, andb_assoc. reflexivity.
Qed.

Lemma full_sigset_members s :
  1 <= s <= SIGMAX ->
  Z.testbit full_sigset (s - 1) = true <-> s <> SIGCANCEL /\ s <> SIGSETXID.
Proof.
  intros Hs. unfold full_sigset, SIGMAX, SIGCANCEL, SIGSETXID in *.
  rewrite !Z.clearbit_eqb, Z.ones_spec_low by lia.
  rewrite !andb_true_iff, !negb_true_iff, !Z.eqb_neq. cbn [andb].
  split; [intros ((_ & H1) & H2)|intros (H1 & H2)]; repeat split; lia.
Qed.

Lemma parent_mask_members s :
  sigismember parent_mask s = true <->
  1 <= s <= SIGMAX /\ s <> SIGCANCEL /\ s <> SIGSETXID /\
  ~ In s [SIGFPE; SIGILL; SIGSEGV; SIGBUS; SIGABRT; SIGTRAP; SIGSYS].
Proof.
  change [SIGFPE; SIGILL; SIGSEGV; SIGBUS; SIGABRT; SIGTRAP; SIGSYS]
    with ignore_signals.
  unfold sigismember, parent_mask, valid_signal.
  rewrite testbit_clear_all.
  rewrite !andb_true_iff, negb_true_iff, Z.ltb_lt, Z.leb_le.
  split.
  - intros ((H1 & H2) & H3 & H4).
    assert (Hs : 1 <= s <= SIGMAX) by lia.
    apply (full_sigset_members s Hs) in H3. destruct H3 as (H3 & H3').
    repeat split; try lia; auto.
    intros I. apply not_true_iff_false in H4. apply H4.
    apply existsb_exists. exists s. split; [exact I|]. apply Z.eqb_refl.
  - intros (Hs & H1 & H2 & H3). split; [lia|]. split.
    + apply (full_sigset_members s Hs). auto.
    + apply not_true_iff_false. intros E. apply existsb_exists in E.
      destruct E as (x & I & E). apply Z.eqb_eq in E.
      assert (x = s) by lia. subst. contradiction.
Qed.

(** ** SupervisionLoop: [main_loop] *)

Lemma loop_order_app ph a b :
  loop_order ph (a ++ b) =
  match loop_order ph a with
  | Some ph' => loop_order ph' b
  | None => None
  end.
Proof.
  revert ph. induction a as [|e a IH]; intros ph; cbn; [reflexivity|].
  destruct (phase_step ph e); [apply IH|reflexivity].
Qed.

Lemma loop_order_reaping evs :
  forallb is_reap_event evs = true -> loop_order Reaping evs = Some Reaping.
Proof.
  induction evs as [|e evs IH]; cbn; [reflexivity|].
  intros H. apply andb_prop in H as [He H].
  destruct e; try discriminate; cbn; auto.
Qed.

Lemma loop_order_reap ph ret st evs :
  ph <> AtLoopHead ->
  forallb is_reap_event evs = true ->
  loop_order ph (EvWaitpid ret st :: evs) = Some Reaping.
Proof.
  intros N H. cbn. destruct ph; try contradiction; apply loop_order_reaping; exact H.
Qed.

Lemma turns_app a b : turns (a ++ b) = (turns a + turns b)%nat.
Proof. unfold turns. rewrite filter_app, length_app. reflexivity. Qed.

Lemma wait_and_forward_spec ps pid w :
  exists r w' evs,
    wait_and_forward_signal ps pid w = (Normal r, w') /\
    trace w' = trace w ++ evs /\
    (r = 0 \/ r = 1) /\
    (logged_fatal evs = true <-> r = 1) /\
    forks evs = [] /\ usages evs = [] /\
    (forall p, reaped_statuses p evs = []) /\
    turns evs = 1%nat /\
    Forall (fun k => fst k = pid) (kills evs) /\
    (forall ph, ph = AtLoopHead \/ ph = Reaping ->
       exists ph', loop_order ph evs = Some ph' /\ ph' <> AtLoopHead).
Proof.
  unfold wait_and_forward_signal.
  destruct w as [v e o pm tr q1 q2 q3 q4 f1 f2 f3 qs qk qw qa].
  run. cases.
  all: eexists _, _, _; (split; [reflexivity|]); cbn; rewrite <- ?app_assoc;
    (split; [reflexivity|]).
  all: split; [auto|].
  all: split; [cbn; intuition congruence|].
  all: split; [reflexivity|].
  all: split; [reflexivity|].
  all: split; [reflexivity|].
  all: split; [reflexivity|].
  all: split; [cbn; repeat constructor|].
  all: intros ph [-> | ->]; cbn; eexists; (split; [reflexivity|discriminate]).
Qed.

Lemma reap_events_forks evs :
  forallb is_reap_event evs = true -> forks evs = [].
Proof.
  induction evs as [|e evs IH]; cbn; [reflexivity|].
  intros H. apply andb_prop in H as [He H].
  destruct e; try discriminate; cbn; auto.
Qed.

Lemma reap_events_usages evs :
  forallb is_reap_event evs = true -> usages evs = [].
Proof.
  induction evs as [|e evs IH]; cbn; [reflexivity|].
  intros H. apply andb_prop in H as [He H].
  destruct e; try discriminate; cbn; auto.
Qed.

Lemma reap_events_kills evs :
  forallb is_reap_event evs = true -> kills evs = [].
Proof.
  induction evs as [|e evs IH]; cbn; [reflexivity|].
  intros H. apply andb_prop in H as [He H].
  destruct e; try discriminate; cbn; auto.
Qed.

Lemma reap_events_turns evs :
  forallb is_reap_event evs = true -> turns evs = 0%nat.
Proof.
  unfold turns. induction evs as [|e evs IH]; cbn; [reflexivity|].
  intros H. apply andb_prop in H as [He H].
  destruct e; try discriminate; cbn; auto.
Qed.

Lemma print_gated_run t l fmt w :
  exists evs,
    print_gated t l fmt w = (Normal tt, set_trace (trace w ++ evs) w) /\
    evs = (if t <? verbosity w then [EvLog l fmt] else []).
Proof.
  unfold print_gated, bind, get, emit, modify, ret.
  destruct (t <? verbosity w).
  - eexists. split; reflexivity.
  - exists []. split; [|reflexivity]. rewrite app_nil_r.
    destruct w; reflexivity.
Qed.

Lemma not_fatal_false b : (b = true <-> 0 = 1) -> b = false.
Proof. destruct b; [intros [H _]; specialize (H eq_refl); discriminate|reflexivity]. Qed.

Lemma main_loop_spec fuel :
  forall ps pid w ph,
    0 < pid -> ph = AtLoopHead \/ ph = Reaping ->
    exists o w' evs,
      main_loop fuel ps pid (-1) w = (o, w') /\
      trace w' = trace w ++ evs /\
      forks evs = [] /\ usages evs = [] /\
      Forall (fun k => fst k = pid) (kills evs) /\
      (exists ph', loop_order ph evs = Some ph') /\
      match o with
      | Normal r =>
        (turns evs <= fuel)%nat /\
        ((logged_fatal evs = true /\ r = 1) \/
         (logged_fatal evs = false /\
          exists st, last_status (reaped_statuses pid evs) = Some st /\
                     outcome_of st = Some r))
      | OutOfFuel =>
        logged_fatal evs = false /\ reaped_statuses pid evs = [] /\
        turns evs = fuel
      | Replaced => False
      end.
Proof.
  induction fuel as [|fuel IH]; intros ps pid w ph Hpid Hph.
  - exists OutOfFuel, w, []. cbn. rewrite app_nil_r.
    repeat split; eauto.
  - cbn [main_loop].
    destruct (wait_and_forward_spec ps pid w)
      as (r1 & w1 & evs1 & R1 & T1 & Hr1 & F1 & K1 & U1 & S1 & N1 & KL1 & O1).
    destruct (O1 ph Hph) as (ph1 & O1' & Hph1).
    unfold bind at 1. rewrite R1.
    destruct Hr1 as [-> | ->].
    2: { change (negb (1 =? 0)) with true. cbv iota. unfold ret.
         exists (Normal 1), w1, evs1.
         repeat split; eauto.
         - rewrite N1. lia.
         - left. split; [apply F1|]; reflexivity. }
    change (negb (0 =? 0)) with false. cbv iota.
    apply not_fatal_false in F1.
    destruct (reap_zombies_spec pid (-1) w1)
      as (r2 & c2 & w2 & evs2 & R2 & P2 & T2 & _ & (ret0 & s0 & evs2' & E2) &
          A2 & F2 & Hnil & Hlast).
    unfold bind at 1. rewrite R2.
    assert (O2 : loop_order ph (evs1 ++ evs2) = Some Reaping).
    { rewrite loop_order_app, O1'. rewrite E2 in A2 |- *.
      apply loop_order_reap; [exact Hph1|]. cbn in A2. exact A2. }
    pose proof (reap_events_forks _ A2) as K2.
    pose proof (reap_events_usages _ A2) as U2.
    pose proof (reap_events_kills _ A2) as KL2.
    pose proof (reap_events_turns _ A2) as N2.
    assert (T12 : trace w2 = trace w ++ evs1 ++ evs2)
      by (rewrite T2, T1, app_assoc; reflexivity).
    destruct (Z.eqb_spec r2 0) as [-> | Hr2]; cbn [negb].
    2: { unfold ret. exists (Normal 1), w2, (evs1 ++ evs2).
         assert (r2 = 1)
           by (destruct (reaper_pass_return _ _ _ _ _ _ P2); congruence).
         subst r2.
         rewrite forks_app, usages_app, kills_app, turns_app, logged_fatal_app,
           K1, K2, U1, U2, KL2, N1, N2, !app_nil_r.
         repeat split; eauto; try lia.
         left. split; [|reflexivity]. rewrite (proj2 F2 eq_refl).
         apply orb_true_r. }
    apply not_fatal_false in F2.
    destruct (Z.eqb_spec c2 (-1)) as [-> | Hc2]; cbn [negb].
    + destruct (IH ps pid w2 Reaping Hpid (or_intror eq_refl))
        as (o3 & w3 & evs3 & R3 & T3 & K3 & U3 & KL3 & (ph3 & O3) & H3).
      assert (S2 : reaped_statuses pid evs2 = []).
      { destruct (last_status (reaped_statuses pid evs2)) as [st|] eqn:L.
        - specialize (Hlast Hpid eq_refl st eq_refl).
          apply outcome_of_set in Hlast. contradiction.
        - apply last_status_nil. exact L. }
      exists o3, w3, (evs1 ++ evs2 ++ evs3). rewrite R3.
      split; [reflexivity|].
      split; [rewrite T3, T12, <- !app_assoc; reflexivity|].
      rewrite !forks_app, !usages_app, !kills_app, K1, K2, U1, U2, KL2, K3, U3.
      split; [reflexivity|]. split; [reflexivity|].
      split; [apply Forall_app; auto|].
      split.
      { exists ph3. rewrite app_assoc, loop_order_app, O2. exact O3. }
      rewrite !reaped_statuses_app, !turns_app, !logged_fatal_app,
        S1, S2, F1, F2, N1, N2.
      cbn [app orb Nat.add].
      destruct o3 as [r3| |]; [|exact H3|].
      * destruct H3 as (H3a & H3b). split; [lia|exact H3b].
      * destruct H3 as (H3a & H3b & H3c). repeat split; auto.
    + destruct (print_gated_run 3 TRACE "Child has exited. Exiting" w2)
        as (evs3 & R3 & E3).
      unfold PRINT_TRACE, bind at 1. rewrite R3. unfold ret.
      assert (A3 : forallb is_reap_event evs3 = true)
        by (rewrite E3; destruct (3 <? verbosity w2); reflexivity).
      assert (F3 : logged_fatal evs3 = false)
        by (rewrite E3; destruct (3 <? verbosity w2); reflexivity).
      assert (S3 : reaped_statuses pid evs3 = [])
        by (rewrite E3; destruct (3 <? verbosity w2); reflexivity).
      eexists (Normal c2), _, (evs1 ++ evs2 ++ evs3).
      split; [reflexivity|].
      split; [cbn; rewrite T12, <- !app_assoc; reflexivity|].
      rewrite !forks_app, !usages_app, !kills_app, K1, K2, U1, U2, KL2,
        (reap_events_forks _ A3), (reap_events_usages _ A3),
        (reap_events_kills _ A3), !app_nil_r.
      split; [reflexivity|]. split; [reflexivity|]. split; [exact KL1|].
      split.
      { exists Reaping. rewrite app_assoc, loop_order_app, O2.
        apply loop_order_reaping. exact A3. }
      rewrite !reaped_statuses_app, !turns_app, !logged_fatal_app,
        S1, S3, F1, F2, F3, N1, N2, (reap_events_turns _ A3), app_nil_r.
      cbn [app orb Nat.add]. split; [lia|]. right. split; [reflexivity|].
      destruct (last_status (reaped_statuses pid evs2)) as [st|] eqn:L.
      * exists st. split; [reflexivity|]. apply Hlast; auto.
      * apply last_status_nil in L. specialize (Hnil Hpid L). contradiction.
Qed.

(** ** Invocation interface: [parse_args] *)

Lemma last_cons_default {A} (x : A) (l : list A) (d : A) :
  last (x :: l) d = last l x.
Proof.
  revert x d. induction l as [|y l IH]; intros x d; [reflexivity|].
  change (last (y :: l) d = last (y :: l) x). rewrite !IH. reflexivity.
Qed.

Lemma last_firstn_step {A} (n : nat) (p : list A) (d : A) :
  last (firstn (S n) p) d = last (firstn n (tl p)) (hd d p).
Proof.
  destruct p as [|a p]; [destruct n; reflexivity|].
  cbn [firstn tl hd]. apply last_cons_default.
Qed.

Lemma getopts_app a b : getopts (a ++ b) = getopts a ++ getopts b.
Proof. unfold getopts. apply flat_map_app. Qed.

Lemma parse_options_spec fuel :
  forall name pfe argv w,
    (List.length (env_getopt w) < fuel)%nat ->
    exists res pfe' argv' w' evs,
      parse_options fuel name pfe argv w = (Normal (res, pfe', argv'), w') /\
      trace w' = trace w ++ evs /\
      parse_frame w w' /\ errno w' = errno w /\
      forallb is_parse_event evs = true /\
      logged_fatal evs = false /\
      argv' = argv_after (List.length (getopts evs)) w argv /\
      match skip_verbose (env_getopt w) with
      | [] => res = None /\ pfe' = pfe /\ usages evs = []
      | (c, oi) :: rest =>
        optind w' = oi /\ env_getopt w' = rest /\
        if c =? -1 then res = None /\ pfe' = pfe /\ usages evs = []
        else if c =? ch "h" then
          res = Some 1 /\ pfe' = 0 /\ usages evs = [Stdout]
        else if c =? ch "?" then
          res = Some 1 /\ pfe' = pfe /\ usages evs = [Stderr]
        else res = Some 1 /\ pfe' = pfe /\ usages evs = []
      end.
Proof.
  induction fuel as [|fuel IH]; intros name pfe argv w Hlen;
    [cbn in Hlen; lia|].
  destruct w as [v e o pm tr q1 q2 q3 q4 f1 f2 f3 qs qk qw qa].
  cbn [env_getopt] in Hlen |- *. cbn [parse_options].
  unfold argv_after. cbn [env_argv].
  destruct q4 as [|[c oi] q4]; run.
  - eexists _, _, _, _, _. split; [reflexivity|]. cbn.
    split; [reflexivity|].
    repeat split; try reflexivity.
    destruct qa; reflexivity.
  - cbn [skip_verbose].
    destruct (c =? -1) eqn:E1; cbn.
    { assert ((c =? ch "v") = false) as ->
        by (zbool; subst; reflexivity).
      rewrite E1.
      eexists _, _, _, _, _. split; [reflexivity|]. cbn.
      repeat split; try reflexivity. destruct qa; reflexivity. }
    destruct (c =? ch "h") eqn:E2; cbn.
    { assert ((c =? ch "v") = false) as ->
        by (zbool; subst; reflexivity).
      rewrite E1, E2.
      eexists _, _, _, _, _. split; [reflexivity|]. cbn.
      rewrite <- ?app_assoc. repeat split; try reflexivity.
      destruct qa; reflexivity. }
    destruct (c =? ch "v") eqn:E3; cbn.
    { match goal with
      | |- context [parse_options _ ?n1 ?p1 ?a1 ?w1] =>
        destruct (IH n1 p1 a1 w1)
          as (res & pfe' & argv' & w' & evs & R & T & F & Er & A & L & Ha & H);
        [cbn in *; lia|]; rewrite R; cbn in T, F, Er, H;
        unfold argv_after in Ha; cbn [env_argv] in Ha
      end.
      eexists _, _, _, _, (EvGetopt c :: evs). split; [reflexivity|].
      split; [rewrite T, <- ?app_assoc; reflexivity|].
      split; [exact F|]. split; [exact Er|].
      split; [exact A|]. split; [exact L|].
      split; [|exact H].
      rewrite Ha. cbn [getopts flat_map app List.length].
      fold (getopts evs). symmetry. apply last_firstn_step. }
    rewrite E1, E2.
    destruct (c =? ch "?") eqn:E4; cbn.
    all: eexists _, _, _, _, _; (split; [reflexivity|]); cbn.
    all: rewrite <- ?app_assoc; repeat split; try reflexivity.
    all: destruct qa; reflexivity.
Qed.

Lemma parse_args_spec argc argv a0 pfe0 w :
  exists r args pfe w' evs,
    parse_args argc argv a0 pfe0 w = (Normal (r, args, pfe), w') /\
    trace w' = trace w ++ evs /\
    parse_frame w w' /\
    forallb is_parse_event evs = true /\
    (r = 0 \/ r = 1) /\
    (r = 0 -> logged_fatal evs = false /\ usages evs = []) /\
    let argv' := argv_after (List.length (getopts evs)) w argv in
    match skip_verbose (env_getopt w) with
    | [] => pfe = pfe0 /\ after_options argc argv' (optind w') w r args evs
    | (c, oi) :: rest =>
      if c =? -1 then
        pfe = pfe0 /\ after_options argc argv' oi w r args evs
      else if c =? ch "h" then
        r = 1 /\ pfe = 0 /\ usages evs = [Stdout] /\ logged_fatal evs = false
      else if c =? ch "?" then
        r = 1 /\ pfe = pfe0 /\ usages evs = [Stderr] /\
        logged_fatal evs = false
      else
        r = 1 /\ pfe = pfe0 /\ usages evs = [] /\ logged_fatal evs = false
    end.
Proof.
  unfold parse_args, after_options. unfold bind at 1, get.
  destruct (parse_options_spec (S (List.length (env_getopt w)))
              (nth 0 argv EmptyString) pfe0 argv w (Nat.lt_succ_diag_r _))
    as (res & pfe & argv1 & w1 & evs1 & R & T & F & Er & A & L & Ha & H).
  unfold bind at 1. rewrite R.
  destruct w as [v e o pm tr q1 q2 q3 q4 f1 f2 f3 qs qk qw qa].
  destruct w1 as [v1 e1 o1 pm1 tr1 q11 q21 q31 q41 f11 f21 f31 qs1 qk1 qw1 qa1].
  unfold parse_frame in F. unfold argv_after in *.
  cbn in F, T, Er, H, Ha |- *.
  injection F as -> -> -> -> -> -> -> -> -> ->. subst e1 tr1.
  assert (Hend : res = None -> pfe = pfe0 -> usages evs1 = [] ->
    forall oi, o1 = oi ->
    exists r args pfe1 w' evs,
      (match res with
       | Some v0 => ret (v0, a0, pfe)
       | None =>
         ok <- calloc;;
         (if negb ok
          then
           PRINT_FATAL "Failed to allocate memory for child args: '%s'";;
           ret (1, [], pfe)
          else
           oi0 <- get optind;;
           (if Z.max 0 (argc - oi0) =? 0
            then
             print_usage (nth 0 argv EmptyString) Stderr;;
             ret (1, copy_args argv1 oi0 (Z.to_nat (Z.max 0 (argc - oi0))), pfe)
            else
             ret (0, copy_args argv1 oi0 (Z.to_nat (Z.max 0 (argc - oi0))), pfe)))
       end (mkWorld v1 e o1 pm (tr ++ evs1) q1 q2 q3 q41 f1 f2 f3 qs qk qw qa1))
      = (Normal (r, args, pfe1), w') /\
      trace w' = tr ++ evs /\
      parse_frame (mkWorld v e o pm tr q1 q2 q3 q4 f1 f2 f3 qs qk qw qa) w' /\
      forallb is_parse_event evs = true /\
      (r = 0 \/ r = 1) /\
      (r = 0 -> logged_fatal evs = false /\ usages evs = []) /\
      optind w' = o1 /\
      pfe1 = pfe0 /\
      getopts evs = getopts evs1 /\
      match f1 with
      | Some _ => r = 1 /\ logged_fatal evs = true /\ usages evs = []
      | None =>
        logged_fatal evs = false /\
        (if argc <=? oi
         then r = 1 /\ usages evs = [Stderr]
         else
          r = 0 /\ usages evs = [] /\
          args = copy_args argv1 oi (Z.to_nat (argc - oi)))
      end).
  { intros -> -> U oi <-. run. destruct f1 as [e1|]; run.
    - eexists _, _, _, _, _. split; [reflexivity|]. cbn.
      split; [rewrite <- ?app_assoc; reflexivity|].
      rewrite ?forallb_app, ?logged_fatal_app, ?usages_app, ?getopts_app,
        A, L, U.
      cbn. rewrite ?app_nil_r.
      repeat split; try reflexivity; auto; discriminate.
    - destruct (Z.max 0 (argc - o1) =? 0) eqn:E; zbool.
      + assert ((argc <=? o1) = true) as -> by (apply Z.leb_le; lia).
        eexists _, _, _, _, _. split; [reflexivity|]. cbn.
        split; [rewrite <- ?app_assoc; reflexivity|].
        rewrite ?forallb_app, ?logged_fatal_app, ?usages_app, ?getopts_app,
          A, L, U.
        cbn. rewrite ?app_nil_r.
        repeat split; try reflexivity; auto; discriminate.
      + assert ((argc <=? o1) = false) as -> by (apply Z.leb_gt; lia).
        exists 0, (copy_args argv1 o1 (Z.to_nat (Z.max 0 (argc - o1)))), pfe0,
          (mkWorld v1 e o1 pm (tr ++ evs1) q1 q2 q3 q41 None f2 f3 qs qk qw qa1),
          evs1.
        split; [reflexivity|]. cbn.
        repeat split; try reflexivity; auto.
        rewrite Z.max_r by lia. reflexivity. }
  destruct (skip_verbose q4) as [|[c oi] rest].
  - destruct H as (-> & -> & U).
    destruct (Hend eq_refl eq_refl U o1 eq_refl)
      as (r & args & pfe1 & w' & evs & R' & T' & F' & A' & Hr & H0 & Ho & -> & G & H').
    exists r, args, pfe0, w', evs. rewrite Ho, G, <- Ha. auto 10.
  - destruct H as (Ho & Hq & H).
    destruct (c =? -1).
    { destruct H as (-> & -> & U).
      destruct (Hend eq_refl eq_refl U oi Ho)
        as (r & args & pfe1 & w' & evs & R' & T' & F' & A' & Hr & H0 & Ho' & -> & G & H').
      exists r, args, pfe0, w', evs. rewrite G, <- Ha. auto 10. }
    clear Hend.
    destruct (c =? ch "h"); [|destruct (c =? ch "?")];
      destruct H as (-> & -> & U); unfold ret;
      eexists 1, a0, _,
        (mkWorld v1 e o1 pm (tr ++ evs1) q1 q2 q3 q41 f1 f2 f3 qs qk qw qa1), evs1;
      (split; [reflexivity|]); cbn;
      repeat split; auto; discriminate.
Qed.

(** ** ChildSpawner: [spawn] *)

Lemma spawn_spec cs args pid0 w :
  exists o w' evs,
    spawn cs args pid0 w = (o, w') /\
    trace w' = trace w ++ evs /\
    usages evs = [] /\ kills evs = [] /\ turns evs = 0%nat /\
    (forall p, reaped_statuses p evs = []) /\
    match env_fork w with
    | ForkParent p =>
      o = Normal (0, Z.pos p) /\ forks evs = [Z.pos p] /\
      logged_fatal evs = false /\
      w' = set_trace (trace w') w
    | ForkChild =>
      forks evs = [0] /\
      (o = Replaced \/ (o = Normal (1, pid0) /\ logged_fatal evs = true))
    | ForkFail e =>
      o = Normal (1, pid0) /\ forks evs = [-1] /\ logged_fatal evs = true
    end.
Proof.
  unfold spawn.
  destruct w as [v e o pm tr q1 q2 q3 q4 f1 f2 f3 qs qk qw qa].
  destruct f2 as [p| |e']; run.
  - cases.
    all: eexists _, _, _; (split; [reflexivity|]); cbn; rewrite <- ?app_assoc;
      (split; [reflexivity|]); repeat split; reflexivity.
  - destruct q3 as [|[e3|] q3]; run; try (destruct f3; run).
    all: eexists _, _, _; (split; [reflexivity|]); cbn; rewrite <- ?app_assoc;
      (split; [reflexivity|]); repeat split; try reflexivity; auto.
  - eexists _, _, _; (split; [reflexivity|]); cbn; rewrite <- ?app_assoc;
      (split; [reflexivity|]); repeat split; try reflexivity; auto.
Qed.

(** ** [main] *)

Lemma parse_events_forks evs :
  forallb is_parse_event evs = true -> forks evs = [].
Proof.
  induction evs as [|e evs IH]; cbn; [reflexivity|].
  intros H. apply andb_prop in H as [He H].
  destruct e; try discriminate; cbn; auto.
Qed.

Lemma parse_events_kills evs :
  forallb is_parse_event evs = true -> kills evs = [].
Proof.
  induction evs as [|e evs IH]; cbn; [reflexivity|].
  intros H. apply andb_prop in H as [He H].
  destruct e; try discriminate; cbn; auto.
Qed.

Lemma parse_events_reaped p evs :
  forallb is_parse_event evs = true -> reaped_statuses p evs = [].
Proof.
  induction evs as [|e evs IH]; cbn; [reflexivity|].
  intros H. apply andb_prop in H as [He H].
  destruct e; try discriminate; cbn; auto.
Qed.

Lemma parse_events_turns evs :
  forallb is_parse_event evs = true -> turns evs = 0%nat.
Proof.
  unfold turns. induction evs as [|e evs IH]; cbn; [reflexivity|].
  intros H. apply andb_prop in H as [He H].
  destruct e; try discriminate; cbn; auto.
Qed.

Lemma parse_frame_env_fork w w' :
  parse_frame w w' -> env_fork w' = env_fork w.
Proof. unfold parse_frame. intros ->. reflexivity. Qed.

(** The runs of [main], by the step at which they leave the startup
    sequence. *)
Lemma main_spec fuel argv w :
  exists o w' evs,
    main fuel argv w = (o, w') /\
    trace w' = trace w ++ evs /\
    ((mask_setup_ok w = false /\ o = Normal 1 /\
      exists fmt, evs = [EvLog FATAL fmt]) \/
     (mask_setup_ok w = true /\
      exists r args pfe w2 evs2,
        parse_args (Z.of_nat (List.length argv)) argv [] 1 (after_mask_setup w)
          = (Normal (r, args, pfe), w2) /\
        trace w2 = trace (after_mask_setup w) ++ evs2 /\
        forallb is_parse_event evs2 = true /\
        ((r <> 0 /\ o = Normal pfe /\ w' = w2 /\
          evs = EvSigprocmask SIG_SETMASK parent_mask :: evs2) \/
         (r = 0 /\ logged_fatal evs2 = false /\ usages evs2 = [] /\
          exists evs3 evs4,
            evs = EvSigprocmask SIG_SETMASK parent_mask :: evs2 ++ evs3 ++ evs4 /\
            usages evs3 = [] /\ kills evs3 = [] /\ turns evs3 = 0%nat /\
            (forall p, reaped_statuses p evs3 = []) /\
            match env_fork w with
            | ForkParent p =>
              forks evs3 = [Z.pos p] /\ logged_fatal evs3 = false /\
              exists w3,
                main_loop fuel parent_mask (Z.pos p) (-1) w3 = (o, w') /\
                trace w' = trace w3 ++ evs4
            | ForkChild =>
              evs4 = [] /\ forks evs3 = [0] /\
              (o = Replaced \/ (o = Normal 1 /\ logged_fatal evs3 = true))
            | ForkFail e =>
              evs4 = [] /\ o = Normal 1 /\ forks evs3 = [-1] /\
              logged_fatal evs3 = true
            end)))).
Proof.
  unfold main. unfold bind at 1.
  destruct (mask_setup_ok w) eqn:MS.
  - rewrite (prepare_sigmask_ok 0 0 w MS).
    change (negb (0 =? 0)) with false. cbv iota.
    destruct (parse_args_spec (Z.of_nat (List.length argv)) argv [] 1
                (after_mask_setup w))
      as (r & args & pfe & w2 & evs2 & R2 & T2 & F2 & A2 & Hr2 & H0 & _).
    unfold bind at 1. rewrite R2.
    assert (T02 : trace w2 =
                  trace w ++ EvSigprocmask SIG_SETMASK parent_mask :: evs2).
    { rewrite T2. unfold after_mask_setup. cbn. rewrite <- app_assoc.
      reflexivity. }
    destruct Hr2 as [-> | ->].
    2: { change (negb (1 =? 0)) with true. cbv iota. unfold ret.
         eexists _, _, _. split; [reflexivity|]. split; [exact T02|].
         right. split; [reflexivity|].
         exists 1, args, pfe, w2, evs2. repeat split; auto.
         left. repeat split; auto. discriminate. }
    change (negb (0 =? 0)) with false. cbv iota.
    destruct (H0 eq_refl) as (L2 & U2).
    destruct (spawn_spec (procmask w) args 0 w2)
      as (o3 & w3 & evs3 & R3 & T3 & U3 & K3 & N3 & S3 & H3).
    unfold bind at 1. rewrite R3.
    assert (EF : env_fork w2 = env_fork w).
    { rewrite (parse_frame_env_fork _ _ F2). destruct w; reflexivity. }
    rewrite EF in H3.
    destruct (env_fork w) as [p| |e'].
    + destruct H3 as (-> & K3' & L3 & F3).
      change (negb (0 =? 0)) with false. cbv iota.
      destruct (main_loop_spec fuel parent_mask (Z.pos p) w3 AtLoopHead)
        as (o & w' & evs4 & R4 & T4 & _); [lia|auto|].
      exists o, w', (EvSigprocmask SIG_SETMASK parent_mask :: evs2 ++ evs3 ++ evs4).
      split; [exact R4|].
      split.
      { rewrite T4, T3, T02. rewrite <- !app_assoc. reflexivity. }
      right. split; [reflexivity|].
      exists 0, args, pfe, w2, evs2. repeat split; auto.
      right. repeat split; auto.
      exists evs3, evs4. repeat split; auto.
      exists w3. auto.
    + destruct H3 as (K3' & [-> | (-> & L3)]).
      * exists Replaced, w3, (EvSigprocmask SIG_SETMASK parent_mask :: evs2 ++ evs3 ++ []).
        split; [reflexivity|].
        split.
        { rewrite T3, T02, app_nil_r, <- !app_assoc. reflexivity. }
        right. split; [reflexivity|].
        exists 0, args, pfe, w2, evs2. repeat split; auto.
        right. repeat split; auto.
        exists evs3, []. repeat split; auto.
      * change (negb (1 =? 0)) with true. cbv iota. unfold ret.
        exists (Normal 1), w3, (EvSigprocmask SIG_SETMASK parent_mask :: evs2 ++ evs3 ++ []).
        split; [reflexivity|].
        split.
        { rewrite T3, T02, app_nil_r, <- !app_assoc. reflexivity. }
        right. split; [reflexivity|].
        exists 0, args, pfe, w2, evs2. repeat split; auto.
        right. repeat split; auto.
        exists evs3, []. repeat split; auto.
    + destruct H3 as (-> & K3' & L3).
      change (negb (1 =? 0)) with true. cbv iota. unfold ret.
      exists (Normal 1), w3, (EvSigprocmask SIG_SETMASK parent_mask :: evs2 ++ evs3 ++ []).
      split; [reflexivity|].
      split.
      { rewrite T3, T02, app_nil_r, <- !app_assoc. reflexivity. }
      right. split; [reflexivity|].
      exists 0, args, pfe, w2, evs2. repeat split; auto.
      right. repeat split; auto.
      exists evs3, []. repeat split; auto.
  - destruct (prepare_sigmask_fail 0 0 w MS) as (p & w' & fmt & R & T & F).
    rewrite R. change (negb (1 =? 0)) with true. cbv iota. unfold ret.
    exists (Normal 1), w', [EvLog FATAL fmt].
    split; [reflexivity|]. split; [exact T|]. left. eauto.
Qed.

(** ** The supervisor as a whole *)


Lemma forks_sigprocmask h m l : forks (EvSigprocmask h m :: l) = forks l.
Proof. reflexivity. Qed.

Lemma usages_sigprocmask h m l : usages (EvSigprocmask h m :: l) = usages l.
Proof. reflexivity. Qed.




(** C2. [prepare_sigmask] always returns, without forking.  When none of
    its mask operations fails it returns 0; the parent mask holds exactly the
    signals of a full set, that is 1..64 without the two that [sigfillset]
    leaves out (32 and 33), other than SIGFPE, SIGILL, SIGSEGV, SIGBUS,
    SIGABRT, SIGTRAP and SIGSYS; that mask is the one installed, and the
    child mask is the mask that was installed before the call.  When one of
    them fails it returns 1 and leaves the installed mask alone, and [main]
    then returns 1 after a FATAL line, without any [fork]. *)
Theorem prepare_sigmask_contract :
  forall (parent0 child0 : sigset) (w : World),
  exists r parent child w' evs,
    prepare_sigmask parent0 child0 w = (Normal (r, parent, child), w') /\
    trace w' = trace w ++ evs /\
    forks evs = [] /\
    (mask_setup_ok w = true ->
       r = 0 /\
       (forall s, sigismember parent s = true <->
                  1 <= s <= SIGMAX /\ s <> SIGCANCEL /\ s <> SIGSETXID /\
                  ~ In s [SIGFPE; SIGILL; SIGSEGV; SIGBUS; SIGABRT; SIGTRAP;
                          SIGSYS]) /\
       procmask w' = parent /\
       child = procmask w /\
       evs = [EvSigprocmask SIG_SETMASK parent]) /\
    (mask_setup_ok w = false ->
       r = 1 /\ procmask w' = procmask w /\
       forall fuel argv,
       exists w'' evs',
         main fuel argv w = (Normal 1, w'') /\
         trace w'' = trace w ++ evs' /\
         logged_fatal evs' = true /\ forks evs' = []).
Proof.
  intros p0 c0 w. destruct (mask_setup_ok w) eqn:MS.
  - exists 0, parent_mask, (procmask w), (after_mask_setup w),
      [EvSigprocmask SIG_SETMASK parent_mask].
    split; [apply prepare_sigmask_ok; exact MS|].
    split; [reflexivity|]. split; [reflexivity|].
    split; [|discriminate]. intros _.
    split; [reflexivity|]. split; [apply parent_mask_members|].
    repeat split; reflexivity.
  - destruct (prepare_sigmask_fail p0 c0 w MS) as (p & w' & fmt & R & T & F).
    exists 1, p, c0, w', [EvLog FATAL fmt].
    split; [exact R|]. split; [exact T|]. split; [reflexivity|].
    split; [discriminate|]. intros _.
    split; [reflexivity|]. split.
    + unfold mask_failure_frame in F. rewrite F. reflexivity.
    + intros fuel argv.
      destruct (main_spec fuel argv w) as (o0 & w0 & evs0 & R0 & T0 & H).
      destruct H as [(_ & -> & fmt0 & ->) | (E & _)]; [|congruence].
      exists w0, [EvLog FATAL fmt0]. auto.
Qed.

Lemma skip_verbose_app vs a rest :
  Forall is_verbose_option vs -> fst a <> ch "v" ->
  skip_verbose (vs ++ a :: rest) = a :: rest.
Proof.
  unfold is_verbose_option. intros V N.
  induction vs as [|[c oi] vs IH]; cbn [app skip_verbose].
  - destruct a as [c oi]. cbn in N. apply Z.eqb_neq in N. rewrite N.
    reflexivity.
  - inversion V as [|? ? Hc V']; subst. cbn in Hc. subst c.
    rewrite Z.eqb_refl. apply IH. exact V'.
Qed.

(** C8. Once the signal mask is set up, [main] treats the command line as
    follows, however many [-v] options come first.  When [getopt] reports
    [-h], the usage text goes to standard output and [main] returns 0; when
    it reports an unknown option ['?'], the usage text goes to standard error
    and [main] returns 1; when it reports the end of the options with no
    argument left ([argc <= optind]) and the argument array could be
    allocated, the usage text goes to standard error and [main] returns 1.
    In all three cases nothing else prints the usage text and [fork] is not
    called. *)
Theorem argument_parsing_exits :
  forall (fuel : nat) (argv : list string) (w : World),
    mask_setup_ok w = true ->
    exists o w' evs,
      main fuel argv w = (o, w') /\
      trace w' = trace w ++ evs /\
      (forall vs oi rest,
         env_getopt w = vs ++ (ch "h", oi) :: rest ->
         Forall is_verbose_option vs ->
         o = Normal 0 /\ usages evs = [Stdout] /\ forks evs = []) /\
      (forall vs oi rest,
         env_getopt w = vs ++ (ch "?", oi) :: rest ->
         Forall is_verbose_option vs ->
         o = Normal 1 /\ usages evs = [Stderr] /\ forks evs = []) /\
      (forall vs oi rest,
         env_getopt w = vs ++ (-1, oi) :: rest ->
         Forall is_verbose_option vs ->
         env_calloc w = None ->
         Z.of_nat (List.length argv) <= oi ->
         o = Normal 1 /\ usages evs = [Stderr] /\ forks evs = []).
Proof.
  intros fuel argv w MS.
  destruct (main_spec fuel argv w) as (o & w' & evs & R & T & H).
  exists o, w', evs. split; [exact R|]. split; [exact T|].
  destruct H as [(E & _) | (_ & r & args & pfe & w2 & evs2 & R2 & T2 & A2 & H)];
    [congruence|].
  destruct (parse_args_spec (Z.of_nat (List.length argv)) argv [] 1
              (after_mask_setup w))
    as (r' & args' & pfe' & w2' & evs2' & R2' & T2' & _ & _ & _ & _ & P).
  rewrite R2 in R2'. injection R2' as <- <- <- <-.
  rewrite T2 in T2'. apply app_inv_head in T2'. subst evs2'.
  assert (G : env_getopt (after_mask_setup w) = env_getopt w)
    by (destruct w; reflexivity).
  assert (C : env_calloc (after_mask_setup w) = env_calloc w)
    by (destruct w; reflexivity).
  rewrite G in P. unfold after_options in P. rewrite C in P.
  assert (Stop : r = 1 ->
            o = Normal pfe /\ usages evs = usages evs2 /\ forks evs = []).
  { intros ->.
    destruct H as [(_ & -> & _ & ->) | (E & _)]; [|discriminate].
    rewrite forks_sigprocmask, usages_sigprocmask, (parse_events_forks _ A2).
    auto. }
  split; [|split].
  - intros vs oi rest E V. rewrite E, skip_verbose_app in P; auto.
    2: { cbn. discriminate. }
    change (ch "h" =? -1) with false in P. rewrite Z.eqb_refl in P.
    destruct P as (-> & -> & U & _).
    destruct (Stop eq_refl) as (-> & -> & K). auto.
  - intros vs oi rest E V. rewrite E, skip_verbose_app in P; auto.
    2: { cbn. discriminate. }
    change (ch "?" =? -1) with false in P.
    change (ch "?" =? ch "h") with false in P. rewrite Z.eqb_refl in P.
    destruct P as (-> & -> & U & _).
    destruct (Stop eq_refl) as (-> & -> & K). auto.
  - intros vs oi rest E V Ca Le. rewrite E, skip_verbose_app in P; auto.
    2: { cbn. discriminate. }
    rewrite Z.eqb_refl, Ca in P. destruct P as (-> & _ & P).
    apply Z.leb_le in Le. rewrite Le in P. destruct P as (-> & U).
    destruct (Stop eq_refl) as (-> & -> & K). auto.
Qed.


(** C10. [main] sets up the signal mask before it looks at its arguments.
    When the setup succeeds, installing the parent mask is the first thing
    every run does, whatever the options are, and a run that ends without
    forking (help, bad option, missing program) ends with that mask
    installed.  When the setup fails, [main] returns 1 without having called
    [getopt], printed the usage text or forked, whatever the options are. *)
Theorem mask_setup_precedes_parsing :
  forall (fuel : nat) (argv : list string) (w : World),
  exists o w' evs,
    main fuel argv w = (o, w') /\
    trace w' = trace w ++ evs /\
    (mask_setup_ok w = true ->
       (exists evs1, evs = EvSigprocmask SIG_SETMASK parent_mask :: evs1) /\
       (forks evs = [] -> procmask w' = parent_mask)) /\
    (mask_setup_ok w = false ->
       o = Normal 1 /\ getopts evs = [] /\ usages evs = [] /\ forks evs = [] /\
       procmask w' = procmask w).
Proof.
  intros fuel argv w.
  destruct (main_spec fuel argv w) as (o & w' & evs & R & T & H).
  exists o, w', evs. split; [exact R|]. split; [exact T|].
  destruct H as [(E & -> & fmt & ->) | (E & r & args & pfe & w2 & evs2 & R2 & T2 & A2 & H)].
  - split; [congruence|]. intros _. repeat split.
    destruct (prepare_sigmask_fail 0 0 w E) as (p & w1 & fmt1 & R1 & _ & F).
    unfold main, bind in R. rewrite R1 in R. cbn in R.
    injection R as <-. unfold mask_failure_frame in F. rewrite F. reflexivity.
  - split; [|congruence]. intros _.
    destruct (parse_args_spec (Z.of_nat (List.length argv)) argv [] 1
                (after_mask_setup w))
      as (r' & args' & pfe' & w2' & evs2' & R2' & _ & F2 & _).
    rewrite R2 in R2'. injection R2' as <- <- <- <-.
    destruct H as [(_ & _ & -> & ->) | (_ & _ & _ & evs3 & evs4 & -> & _ & _ & _ & _ & H)].
    + split; [eauto|]. intros _.
      unfold parse_frame in F2. rewrite F2. destruct w; reflexivity.
    + split; [eauto|]. intros K. exfalso.
      rewrite forks_sigprocmask, !forks_app in K.
      destruct (env_fork w) as [p| |e'].
      * destruct H as (K3 & _). rewrite K3 in K.
        destruct (forks evs2); discriminate.
      * destruct H as (_ & K3 & _). rewrite K3 in K.
        destruct (forks evs2); discriminate.
      * destruct H as (_ & _ & K3 & _). rewrite K3 in K.
        destruct (forks evs2); discriminate.
Qed.

(** ** The theorems at work on the sample runs *)

Example demo_run_exit_code : fst (main 5 demo_argv demo_world) = Normal 143.
Proof. vm_compute. reflexivity. Qed.

Example demo_run_kills :
  kills (trace (snd (main 5 demo_argv demo_world))) = [(42, 15)].
Proof. vm_compute. reflexivity. Qed.

Example help_run : fst (main 5 help_argv help_world) = Normal 0.
Proof. vm_compute. reflexivity. Qed.


Lemma reap_idempotent_when_idle_witness :
  exists w' evs,
    reap_repeatedly 3 42 (-1) idle_world = (Normal (repeat 0 3, -1), w') /\
    env_waitpid w' = skipn 3 (env_waitpid idle_world) /\
    reap_frame idle_world w' /\
    trace w' = trace idle_world ++ evs /\
    Forall idle_event evs.
Proof.
  apply (reap_idempotent_when_idle 3 42 (-1) idle_world).
  cbn.
  repeat (apply Forall_cons; [first [left; reflexivity | right; reflexivity]|]).
  apply Forall_nil.
Defined.

Lemma argument_parsing_exits_witness :
  mask_setup_ok help_world = true /\
  exists o w' evs,
    main 5 help_argv help_world = (o, w') /\
    trace w' = trace help_world ++ evs /\
    (forall vs oi rest,
       env_getopt help_world = vs ++ (ch "h", oi) :: rest ->
       Forall is_verbose_option vs ->
       o = Normal 0 /\ usages evs = [Stdout] /\ forks evs = []) /\
    (forall vs oi rest,
       env_getopt help_world = vs ++ (ch "?", oi) :: rest ->
       Forall is_verbose_option vs ->
       o = Normal 1 /\ usages evs = [Stderr] /\ forks evs = []) /\
    (forall vs oi rest,
       env_getopt help_world = vs ++ (-1, oi) :: rest ->
       Forall is_verbose_option vs ->
       env_calloc help_world = None ->
       Z.of_nat (List.length help_argv) <= oi ->
       o = Normal 1 /\ usages evs = [Stderr] /\ forks evs = []).
Proof.
  split; [reflexivity|].
  apply (argument_parsing_exits 5 help_argv help_world). reflexivity.
Defined.


(** C2 as stated fails at signal 32: it is none of the seven program error
    signals, and the parent mask [prepare_sigmask] produces does not hold
    it. *)
Lemma parent_mask_omits_reserved_signal :
  exists parent child w',
    prepare_sigmask 0 0 demo_world = (Normal (0, parent, child), w') /\
    1 <= 32 <= SIGMAX /\
    ~ In 32 [SIGFPE; SIGILL; SIGSEGV; SIGBUS; SIGABRT; SIGTRAP; SIGSYS] /\
    sigismember parent 32 = false.
Proof.
  eexists _, _, _. split; [vm_compute; reflexivity|].
  split; [unfold SIGMAX; lia|]. split.
  - unfold SIGFPE, SIGILL, SIGSEGV, SIGBUS, SIGABRT, SIGTRAP, SIGSYS.
    cbn [In]. intuition discriminate.
  - vm_compute. reflexivity.
Qed.

(** C6 as stated fails when [waitpid] reports the main child's pid again.
    Started with the recorded code 0 (set), a pass in which pid 42 is
    reported as exited with 0 and then as killed by signal 15 leaves 143;
    and in one run of [main] the code is written twice, for the statuses 0
    and 15, and [main] returns 143. *)
Lemma exit_outcome_overwritten :
  (exists w',
     reap_zombies 42 0 rereport_world = (Normal (0, 143), w') /\
     0 <> -1 /\ 143 <> 0) /\
  fst (main 5 demo_argv rereport_world) = Normal 143 /\
  reaped_statuses 42 (trace (snd (main 5 demo_argv rereport_world))) = [0; 15].
Proof.
  split; [|split].
  - eexists. split; [vm_compute; reflexivity|]. split; discriminate.
  - vm_compute. reflexivity.
  - vm_compute. reflexivity.
Qed.

(** * Further properties of the code *)

(** ** The argument vector of the child *)

Lemma copy_args_skipn (argv : list string) (k : nat) :
  (k <= List.length argv)%nat ->
  copy_args argv (Z.of_nat k) (List.length argv - k) = skipn k argv.
Proof.
  intros Hk. unfold copy_args.
  apply nth_ext with (d := EmptyString) (d' := EmptyString).
  - rewrite length_map, length_seq, length_skipn. reflexivity.
  - intros n Hn. rewrite length_map, length_seq in Hn.
    rewrite nth_skipn.
    rewrite (nth_indep _ EmptyString (nth (Z.to_nat (Z.of_nat k + Z.of_nat 0)) argv EmptyString))
      by (rewrite length_map, length_seq; exact Hn).
    rewrite (map_nth (fun i => nth (Z.to_nat (Z.of_nat k + Z.of_nat i)) argv EmptyString)
               (seq 0 (List.length argv - k)) 0%nat n).
    rewrite seq_nth by exact Hn. cbn [Nat.add].
    f_equal. lia.
Qed.

Lemma skipn_tl {A} (n : nat) (p : list A) : skipn (S n) p = skipn n (tl p).
Proof. destruct p; [destruct n|]; reflexivity. Qed.

Lemma hd_last_firstn {A} (n : nat) :
  forall (p : list A) (d : A),
    hd (last (firstn n p) d) (skipn n p) = last (firstn (S n) p) d.
Proof.
  induction n as [|n IH]; intros p d.
  - destruct p; reflexivity.
  - destruct p as [|a p]; [reflexivity|].
    cbn [firstn skipn]. rewrite !last_cons_default.
    apply IH.
Qed.

Lemma parse_options_verbose vs :
  forall k name pfe argv w rest,
    env_getopt w = vs ++ rest ->
    Forall is_verbose_option vs ->
    parse_options (List.length vs + k) name pfe argv w =
    parse_options k name pfe (argv_after (List.length vs) w argv)
      (after_verbose vs rest w).
Proof.
  unfold is_verbose_option, after_verbose, argv_after.
  induction vs as [|[c oi] vs IH]; intros k name pfe argv w rest E V.
  - cbn in *. rewrite app_nil_r, Z.add_0_r. destruct w; cbn in *.
    subst. reflexivity.
  - inversion V as [|? ? Hc V']; subst. cbn in Hc. subst c.
    destruct w as [v e o pm tr q1 q2 q3 q4 f1 f2 f3 qs qk qw qa].
    cbn in E. subst q4.
    cbn [List.length Nat.add parse_options]. run.
    match goal with
    | |- parse_options _ _ _ ?a1 ?w1 = _ =>
      rewrite (IH k name pfe a1 w1 rest eq_refl V')
    end. cbn -[last firstn skipn].
    change (match map snd vs with
            | [] => oi
            | _ :: _ => last (map snd vs) o
            end) with (last (oi :: map snd vs) o).
    rewrite <- app_assoc, last_cons_default. cbn [app].
    replace (v + 1 + Z.of_nat (List.length vs))
      with (v + Z.of_nat (S (List.length vs))) by lia.
    rewrite <- last_firstn_step, <- skipn_tl.
    reflexivity.
Qed.

Lemma parse_args_accepts :
  forall (argv argv' args0 : list string) (pfe0 : Z) (w : World)
         (vs rest : list (Z * Z)) (oi : nat),
    env_getopt w = vs ++ (-1, Z.of_nat oi) :: rest ->
    Forall is_verbose_option vs ->
    env_calloc w = None ->
    argv_after (S (List.length vs)) w argv = argv' ->
    List.length argv' = List.length argv ->
    (oi < List.length argv)%nat ->
    exists w',
      parse_args (Z.of_nat (List.length argv)) argv args0 pfe0 w =
        (Normal (0, skipn oi argv', pfe0), w') /\
      skipn oi argv' <> [] /\
      verbosity w' = verbosity w + Z.of_nat (List.length vs) /\
      trace w' = trace w ++ map (fun a => EvGetopt (fst a)) vs ++ [EvGetopt (-1)] /\
      optind w' = Z.of_nat oi /\ env_getopt w' = rest /\
      procmask w' = procmask w.
Proof.
  intros argv argv' args0 pfe0 w vs rest oi E V C Ha Hl Hoi.
  unfold parse_args. unfold bind at 1, get.
  rewrite E, length_app. cbn [List.length].
  replace (S (List.length vs + S (List.length rest)))
    with (List.length vs + S (S (List.length rest)))%nat by lia.
  unfold bind at 1. rewrite (parse_options_verbose vs _ _ _ _ w _ E V).
  unfold after_verbose, argv_after in *.
  destruct w as [v e o pm tr q1 q2 q3 q4 f1 f2 f3 qs qk qw qa].
  cbn in C. subst f1. cbn [env_argv] in *. cbn [parse_options]. run.
  rewrite hd_last_firstn, Ha.
  assert (Hmax : Z.max 0 (Z.of_nat (List.length argv) - Z.of_nat oi) =
                 Z.of_nat (List.length argv - oi)) by lia.
  rewrite Hmax.
  destruct (Z.of_nat (List.length argv - oi) =? 0) eqn:Z0; zbool; [lia|].
  rewrite Nat2Z.id, <- Hl, copy_args_skipn by lia.
  eexists. split; [reflexivity|]. cbn.
  rewrite <- app_assoc.
  repeat split; try reflexivity.
  intros N. apply (f_equal (@List.length string)) in N.
  rewrite length_skipn in N. cbn in N. lia.
Qed.

(** X1. When [getopt] reports the end of the options at [optind = oi] with
    at least one argument left, after any number of [-v], and the array can
    be allocated, [parse_args] returns 0.  The child's argument vector is
    then exactly the arguments from index [oi] on of the array behind [argv]
    as the calls of [getopt] left it (reordered or not, but of the same
    length), in order, and is not empty; the exit code for parse failures is
    untouched; [verbosity] has grown by the number of [-v] options; and the
    only trace left is the [getopt] calls. *)
Theorem parse_args_child_vector :
  forall (argv argv' args0 : list string) (pfe0 : Z) (w : World)
         (vs rest : list (Z * Z)) (oi : nat),
    env_getopt w = vs ++ (-1, Z.of_nat oi) :: rest ->
    Forall is_verbose_option vs ->
    env_calloc w = None ->
    argv_after (S (List.length vs)) w argv = argv' ->
    List.length argv' = List.length argv ->
    (oi < List.length argv)%nat ->
    exists w',
      parse_args (Z.of_nat (List.length argv)) argv args0 pfe0 w =
        (Normal (0, skipn oi argv', pfe0), w') /\
      skipn oi argv' <> [] /\
      verbosity w' = verbosity w + Z.of_nat (List.length vs) /\
      trace w' = trace w ++ map (fun a => EvGetopt (fst a)) vs ++ [EvGetopt (-1)] /\
      optind w' = Z.of_nat oi /\ env_getopt w' = rest /\
      procmask w' = procmask w.
Proof.
  intros argv argv' args0 pfe0 w vs rest oi E V C Ha Hl Hoi.
  exact (parse_args_accepts argv argv' args0 pfe0 w vs rest oi E V C Ha Hl Hoi).
Qed.

(** ** ChildSpawner *)

Lemma spawn_cases :
  forall (child_sigset : sigset) (argv : list string) (child_pid : Z)
         (w : World),
  exists o w' evs,
    spawn child_sigset argv child_pid w = (o, w') /\
    trace w' = trace w ++ evs /\
    match env_fork w with
    | ForkParent p =>
      o = Normal (0, Z.pos p) /\ forks evs = [Z.pos p] /\
      execs evs = [] /\ mask_changes evs = [] /\
      procmask w' = procmask w /\ logged_fatal evs = false
    | ForkFail e =>
      o = Normal (1, child_pid) /\ forks evs = [-1] /\
      execs evs = [] /\ mask_changes evs = [] /\
      procmask w' = procmask w /\ logged_fatal evs = true /\ errno w' = e
    | ForkChild =>
      forks evs = [0] /\
      match hd None (env_sigprocmask w) with
      | Some e =>
        o = Normal (1, child_pid) /\ execs evs = [] /\
        mask_changes evs = [] /\ procmask w' = procmask w /\
        logged_fatal evs = true
      | None =>
        procmask w' = child_sigset /\
        exists tail,
          evs = [EvFork 0; EvSigprocmask SIG_SETMASK child_sigset;
                 EvExecvp (nth 0 argv EmptyString) argv] ++ tail /\
          match env_execvp w with
          | None => o = Replaced /\ tail = []
          | Some e =>
            o = Normal (1, child_pid) /\
            tail = [EvLog FATAL "Executing child process '%s' failed: '%s'"]
          end
      end
    end.
Proof.
  intros cs args pid0 w. unfold spawn.
  destruct w as [v e o pm tr q1 q2 q3 q4 f1 f2 f3 qs qk qw qa].
  destruct f2 as [p| |e']; run.
  - cases.
    all: eexists _, _, _; (split; [reflexivity|]); cbn; rewrite <- ?app_assoc;
      (split; [reflexivity|]); repeat split; reflexivity.
  - destruct q3 as [|[e3|] q3]; run; try (destruct f3; run).
    all: eexists _, _, _; (split; [reflexivity|]); cbn; rewrite <- ?app_assoc;
      (split; [reflexivity|]); repeat split; try reflexivity.
    all: eexists; split; reflexivity || (split; reflexivity).
  - eexists _, _, _; (split; [reflexivity|]); cbn; rewrite <- ?app_assoc;
      (split; [reflexivity|]); repeat split; reflexivity.
Qed.

(** X2. [spawn] returns 0 only in the parent.  When [fork] answers with a
    pid, [spawn] returns 0 and that pid, without touching the signal mask
    and without calling [execvp].  When [fork] fails, it returns 1 after a
    FATAL line and leaves the pid variable and the mask alone.  In the
    child, the mask is set to [child_sigset] first; only if that succeeds is
    [execvp] called, with [argv[0]] and [argv]; the child never returns 0:
    either the program image is replaced, or [spawn] returns 1 after a FATAL
    line. *)
Theorem spawn_outcomes :
  forall (child_sigset : sigset) (argv : list string) (child_pid : Z)
         (w : World),
  exists o w' evs,
    spawn child_sigset argv child_pid w = (o, w') /\
    trace w' = trace w ++ evs /\
    match env_fork w with
    | ForkParent p =>
      o = Normal (0, Z.pos p) /\ forks evs = [Z.pos p] /\
      execs evs = [] /\ mask_changes evs = [] /\
      procmask w' = procmask w /\ logged_fatal evs = false
    | ForkFail e =>
      o = Normal (1, child_pid) /\ forks evs = [-1] /\
      execs evs = [] /\ mask_changes evs = [] /\
      procmask w' = procmask w /\ logged_fatal evs = true /\ errno w' = e
    | ForkChild =>
      forks evs = [0] /\
      match hd None (env_sigprocmask w) with
      | Some e =>
        o = Normal (1, child_pid) /\ execs evs = [] /\
        mask_changes evs = [] /\ procmask w' = procmask w /\
        logged_fatal evs = true
      | None =>
        procmask w' = child_sigset /\
        exists tail,
          evs = [EvFork 0; EvSigprocmask SIG_SETMASK child_sigset;
                 EvExecvp (nth 0 argv EmptyString) argv] ++ tail /\
          match env_execvp w with
          | None => o = Replaced /\ tail = []
          | Some e =>
            o = Normal (1, child_pid) /\
            tail = [EvLog FATAL "Executing child process '%s' failed: '%s'"]
          end
      end
    end.
Proof.
  intros child_sigset argv child_pid w.
  exact (spawn_cases child_sigset argv child_pid w).
Qed.

(** ** [main], up to the child *)

(** X3. In the forked child, the program starts with the signal mask tini
    itself was started with: when the mask setup succeeds, the command line
    has an argument left at [optind = oi] and the child's [sigprocmask] does
    not fail, the run of [main] in the child is: install the parent mask,
    read the options, fork, restore the mask that was installed when [main]
    began, and call [execvp] with the argument at [oi] as the file and the
    arguments from [oi] on as its vector, both taken from the array behind
    [argv] as the calls of [getopt] left it.  If [execvp] succeeds the image
    is replaced; if it fails [main] returns 1 after a FATAL line. *)
Theorem child_runs_with_original_mask :
  forall (fuel : nat) (argv argv' : list string) (w : World)
         (vs rest : list (Z * Z)) (oi : nat),
    mask_setup_ok w = true ->
    env_getopt w = vs ++ (-1, Z.of_nat oi) :: rest ->
    Forall is_verbose_option vs ->
    env_calloc w = None ->
    argv_after (S (List.length vs)) w argv = argv' ->
    List.length argv' = List.length argv ->
    (oi < List.length argv)%nat ->
    env_fork w = ForkChild ->
    nth 1 (env_sigprocmask w) None = None ->
    exists o w' tail,
      main fuel argv w = (o, w') /\
      procmask w' = procmask w /\
      trace w' =
        trace w ++
        [EvSigprocmask SIG_SETMASK parent_mask] ++
        map (fun a => EvGetopt (fst a)) vs ++
        [EvGetopt (-1); EvFork 0;
         EvSigprocmask SIG_SETMASK (procmask w);
         EvExecvp (nth oi argv' EmptyString) (skipn oi argv')] ++ tail /\
      match env_execvp w with
      | None => o = Replaced /\ tail = []
      | Some e =>
        o = Normal 1 /\
        tail = [EvLog FATAL "Executing child process '%s' failed: '%s'"]
      end.
Proof.
  intros fuel argv argv' w vs rest oi MS E V C Ha Hl Hoi Fk Sp.
  unfold main. unfold bind at 1. rewrite (prepare_sigmask_ok 0 0 w MS).
  change (negb (0 =? 0)) with false. cbv iota.
  destruct (parse_args_accepts argv argv' [] 1 (after_mask_setup w) vs rest oi)
    as (w2 & R2 & _ & _ & T2 & _ & _ & P2);
    try assumption; try (destruct w; assumption).
  destruct (parse_args_spec (Z.of_nat (List.length argv)) argv [] 1
              (after_mask_setup w))
    as (r' & args' & pfe' & w2' & evs2' & R2' & _ & F2 & _).
  rewrite R2 in R2'. injection R2' as <- <- <- <-.
  unfold bind at 1. rewrite R2.
  change (negb (0 =? 0)) with false. cbv iota.
  unfold bind at 1. unfold spawn.
  unfold parse_frame in F2. rewrite F2. rewrite T2. clear F2 T2 R2 P2.
  destruct w as [v e o pm tr q1 q2 q3 q4 f1 f2 f3 qs qk qw qa].
  cbn in Fk, Sp, C. subst f2 f1.
  unfold after_mask_setup.
  destruct q3 as [|a [|[b|] q3]]; try discriminate Sp; run;
    destruct f3 as [e3|]; run.
  all: rewrite nth_skipn, Nat.add_0_r.
  all: eexists _, _, _; (split; [reflexivity|]); cbn.
  all: rewrite <- ?app_assoc; cbn [app].
  all: repeat split; reflexivity.
Qed.

(** ** Signals through the supervision loop *)

Lemma received_app a b : received (a ++ b) = received a ++ received b.
Proof. apply flat_map_app. Qed.

Lemma waited_sets_app a b : waited_sets (a ++ b) = waited_sets a ++ waited_sets b.
Proof. apply flat_map_app. Qed.

Lemma reap_events_received evs :
  forallb is_reap_event evs = true -> received evs = [].
Proof.
  induction evs as [|e evs IH]; cbn; [reflexivity|].
  intros H. apply andb_prop in H as [He H].
  destruct e; try discriminate; cbn; auto.
Qed.

Lemma reap_events_waited_sets evs :
  forallb is_reap_event evs = true -> waited_sets evs = [].
Proof.
  induction evs as [|e evs IH]; cbn; [reflexivity|].
  intros H. apply andb_prop in H as [He H].
  destruct e; try discriminate; cbn; auto.
Qed.

Lemma reap_frame_fields w w' :
  reap_frame w w' ->
  procmask w' = procmask w /\ verbosity w' = verbosity w /\
  env_sigtimedwait w' = env_sigtimedwait w /\ env_kill w' = env_kill w.
Proof. unfold reap_frame. intros ->. repeat split. Qed.

Lemma wait_and_forward_signals ps pid w :
  exists r w' evs,
    wait_and_forward_signal ps pid w = (Normal r, w') /\
    trace w' = trace w ++ evs /\
    kills evs = map (fun s => (pid, s)) (filter forwardable (received evs)) /\
    waited_sets evs = [ps] /\
    procmask w' = procmask w /\ verbosity w' = verbosity w /\
    env_waitpid w' = env_waitpid w.
Proof.
  unfold wait_and_forward_signal, forwardable.
  destruct w as [v e o pm tr q1 q2 q3 q4 f1 f2 f3 qs qk qw qa].
  run. cases.
  all: eexists _, _, _; (split; [reflexivity|]); cbn; rewrite <- ?app_assoc;
    (split; [reflexivity|]).
  all: cbn; fold_cmp; cbn;
    repeat match goal with
           | H : (Z.pos _ =? _) = _ |- _ => rewrite H
           end; cbn.
  all: repeat split; reflexivity.
Qed.

Lemma main_loop_signals fuel :
  forall ps pid c w,
  exists o w' evs,
    main_loop fuel ps pid c w = (o, w') /\
    trace w' = trace w ++ evs /\
    kills evs = map (fun s => (pid, s)) (filter forwardable (received evs)) /\
    waited_sets evs = repeat ps (List.length (waited_sets evs)) /\
    forks evs = [] /\ execs evs = [] /\ mask_changes evs = [] /\
    procmask w' = procmask w /\ verbosity w' = verbosity w.
Proof.
  induction fuel as [|fuel IH]; intros ps pid c w.
  - exists OutOfFuel, w, []. cbn. rewrite app_nil_r. repeat split.
  - cbn [main_loop].
    destruct (wait_and_forward_signals ps pid w)
      as (r1 & w1 & evs1 & R1 & T1 & K1 & W1 & P1 & V1 & _).
    destruct (wait_and_forward_spec ps pid w)
      as (r1' & w1' & evs1' & R1' & T1' & _ & _ & Fk1 & _).
    rewrite R1 in R1'. injection R1' as <- <-.
    rewrite T1 in T1'. apply app_inv_head in T1'. subst evs1'.
    assert (X1 : execs evs1 = [] /\ mask_changes evs1 = []).
    { clear - R1 T1. unfold wait_and_forward_signal in R1.
      destruct w as [v e o pm tr q1 q2 q3 q4 f1 f2 f3 qs qk qw qa].
      revert R1. run. cases; intros [= <- <-]; cbn in T1;
        rewrite <- ?app_assoc in T1; apply app_inv_head in T1; subst evs1;
        split; reflexivity. }
    destruct X1 as (X1 & M1).
    unfold bind at 1. rewrite R1.
    destruct (negb (r1 =? 0)).
    { unfold ret. exists (Normal 1), w1, evs1.
      rewrite W1. repeat split; auto. }
    destruct (reap_zombies_spec pid c w1)
      as (r2 & c2 & w2 & evs2 & R2 & _ & T2 & F2 & _ & A2 & _).
    destruct (reap_frame_fields _ _ F2) as (P2 & V2 & _).
    unfold bind at 1. rewrite R2.
    assert (X2 : execs evs2 = [] /\ mask_changes evs2 = []).
    { clear - A2. induction evs2 as [|e evs2 IH2]; [split; reflexivity|].
      cbn in A2. apply andb_prop in A2 as [He A2].
      destruct e; try discriminate; cbn; auto. }
    destruct X2 as (X2 & M2).
    assert (G : forall w' evs3,
               trace w' = trace w2 ++ evs3 ->
               kills evs3 = map (fun s => (pid, s))
                              (filter forwardable (received evs3)) ->
               waited_sets evs3 = repeat ps (List.length (waited_sets evs3)) ->
               forks evs3 = [] -> execs evs3 = [] -> mask_changes evs3 = [] ->
               procmask w' = procmask w2 -> verbosity w' = verbosity w2 ->
               exists evs,
                 trace w' = trace w ++ evs /\
                 kills evs = map (fun s => (pid, s))
                               (filter forwardable (received evs)) /\
                 waited_sets evs = repeat ps (List.length (waited_sets evs)) /\
                 forks evs = [] /\ execs evs = [] /\ mask_changes evs = [] /\
                 procmask w' = procmask w /\ verbosity w' = verbosity w).
    { intros w' evs3 T3 K3 W3 Fk3 X3 M3 P3 V3.
      exists (evs1 ++ evs2 ++ evs3).
      split; [rewrite T3, T2, T1, <- !app_assoc; reflexivity|].
      unfold execs, mask_changes in *.
      rewrite !kills_app, !received_app, !waited_sets_app, !forks_app,
        !flat_map_app,
        (reap_events_kills _ A2), (reap_events_received _ A2),
        (reap_events_waited_sets _ A2), (reap_events_forks _ A2),
        Fk1, Fk3, X1, X2, X3, M1, M2, M3, W1.
      cbn [app]. rewrite filter_app, map_app, <- K1, <- K3.
      cbn [List.length repeat]. rewrite <- W3.
      repeat split; congruence. }
    destruct (negb (r2 =? 0)).
    { unfold ret.
      destruct (G w2 []) as (evs & H);
        try reflexivity; [rewrite app_nil_r; reflexivity|].
      exists (Normal 1), w2, evs. split; [reflexivity|]. exact H. }
    destruct (negb (c2 =? -1)).
    + destruct (print_gated_run 3 TRACE "Child has exited. Exiting" w2)
        as (evs3 & R3 & E3).
      unfold PRINT_TRACE, bind at 1. rewrite R3. unfold ret.
      destruct (G (set_trace (trace w2 ++ evs3) w2) evs3)
        as (evs & H); try reflexivity;
        try (rewrite E3; destruct (3 <? verbosity w2); reflexivity).
      exists (Normal c2), (set_trace (trace w2 ++ evs3) w2), evs.
      split; [reflexivity|]. exact H.
    + destruct (IH ps pid c2 w2)
        as (o3 & w3 & evs3 & R3 & T3 & K3 & W3 & Fk3 & X3 & M3 & P3 & V3).
      destruct (G w3 evs3) as (evs & H); auto.
      exists o3, w3, evs. split; [exact R3|]. exact H.
Qed.

(** X4. In every run of the supervision loop, of any length and however it
    ends, the signals sent are exactly the signals [sigtimedwait] dequeued
    other than SIGCHLD: each is sent once, in the order received, with the
    same number, to the main child's pid. *)
Theorem loop_forwards_every_signal :
  forall (fuel : nat) (parent_sigset : sigset) (child_pid child_exitcode : Z)
         (w : World),
  exists o w' evs,
    main_loop fuel parent_sigset child_pid child_exitcode w = (o, w') /\
    trace w' = trace w ++ evs /\
    kills evs =
      map (fun s => (child_pid, s)) (filter forwardable (received evs)).
Proof.
  intros fuel ps pid c w.
  destruct (main_loop_signals fuel ps pid c w)
    as (o & w' & evs & R & T & K & _).
  exists o, w', evs. auto.
Qed.

(** X5. The supervision loop leaves the process as [main] set it up: in
    every run it calls [sigtimedwait] with the same set, the one it was
    given, in every turn; it never forks, never calls [execvp] and never
    calls [sigprocmask]; the installed mask and the verbosity are the same
    when it stops as when it started. *)
Theorem loop_keeps_mask_and_waits_on_it :
  forall (fuel : nat) (parent_sigset : sigset) (child_pid child_exitcode : Z)
         (w : World),
  exists o w' evs,
    main_loop fuel parent_sigset child_pid child_exitcode w = (o, w') /\
    trace w' = trace w ++ evs /\
    Forall (fun s => s = parent_sigset) (waited_sets evs) /\
    forks evs = [] /\ execs evs = [] /\ mask_changes evs = [] /\
    procmask w' = procmask w /\ verbosity w' = verbosity w.
Proof.
  intros fuel ps pid c w.
  destruct (main_loop_signals fuel ps pid c w)
    as (o & w' & evs & R & T & _ & W & H).
  exists o, w', evs. split; [exact R|]. split; [exact T|].
  split; [|exact H]. rewrite W. apply Forall_forall.
  intros s I. apply repeat_spec in I. exact I.
Qed.

(** ** Draining *)

Lemma collected_app a b : collected (a ++ b) = collected a ++ collected b.
Proof. apply flat_map_app. Qed.

Lemma reap_loop_collects pre :
  forall n pid c st w a post,
    (List.length pre < n)%nat ->
    env_waitpid w = pre ++ a :: post ->
    Forall (benign_reap pid) pre -> quiescent a ->
    exists c' w' evs,
      reap_loop n pid c st w = (Normal (0, c'), w') /\
      trace w' = trace w ++ evs /\
      collected evs = flat_map reaped_pair pre /\
      env_waitpid w' = post.
Proof.
  unfold quiescent.
  induction pre as [|x pre IH]; intros n pid c st w a post Hn E B Q.
  - destruct n as [|n]; [cbn in Hn; lia|].
    destruct w as [v e o pm tr q1 q2 q3 q4 f1 f2 f3 qs qk qw qa].
    cbn in E. subst qw. cbn [reap_loop].
    destruct Q as [-> | ->]; run; run; cases.
    all: eexists _, _, _; (split; [reflexivity|]); cbn; rewrite <- ?app_assoc;
      (split; [reflexivity|]); split; reflexivity.
  - destruct n as [|n]; [cbn in Hn; lia|].
    inversion B as [|? ? Bx B']; subst.
    destruct x as [p s| |e']; try contradiction.
    destruct w as [v e o pm tr q1 q2 q3 q4 f1 f2 f3 qs qk qw qa].
    cbn in E. subst qw. cbn [reap_loop]. cbn in Bx. run. cases.
    all: try match goal with
             | |- context [reap_loop _ ?p1 ?c1 ?s1 ?w1] =>
               destruct (IH n p1 c1 s1 w1 a post)
                 as (c' & w' & evs & R & T & C & Q');
               [cbn in Hn; lia|reflexivity|assumption|assumption|];
               rewrite R; cbn in T;
               eexists _, _, _; (split; [reflexivity|]);
               (split; [rewrite T, <- ?app_assoc; reflexivity|]);
               cbn; fold (collected evs); rewrite C;
               (split; [reflexivity|exact Q'])
             end.
    all: zbool; destruct (Bx ltac:(assumption)); congruence.
Qed.

(** X6. One pass of [reap_zombies] collects every terminated descendant the
    kernel reports before it answers that none is left: the main child and
    the others alike, in the order reported, each once; the pass then stops
    with 0 and leaves the later answers for the next pass. *)
Theorem reap_zombies_drains :
  forall (child_pid child_exitcode : Z) (w : World)
         (pre : list wait_ret) (a : wait_ret) (post : list wait_ret),
    env_waitpid w = pre ++ a :: post ->
    Forall (benign_reap child_pid) pre -> quiescent a ->
    exists c' w' evs,
      reap_zombies child_pid child_exitcode w = (Normal (0, c'), w') /\
      trace w' = trace w ++ evs /\
      collected evs = flat_map reaped_pair pre /\
      env_waitpid w' = post.
Proof.
  intros pid c w pre a post E B Q.
  unfold reap_zombies, bind, get.
  apply (reap_loop_collects pre _ pid c 0 w a post); auto.
  rewrite E, length_app. cbn. lia.
Qed.

(** ** The supervisor ends when the main child does *)

Ltac not_other M :=
  let HW := fresh "HW" in
  let HE := fresh "HE" in
  let N := fresh "HN" in
  inversion M as [|? ? HW ?]; subst;
  destruct HW as (? & ? & HE & N); injection HE as <- <-; contradiction.

Lemma reaper_pass_tail pid c q r c' q' :
  reaper_pass pid c q r c' q' ->
  pass_ends_well pid q -> r = 0 /\ c' = c.
Proof.
  intros H.
  induction H as [c|c q|c q|c e q He|c p st q r c' q' Hp Hpass IH|c p st code q r c' q' Hp Ho Hpass IH|c p st q Hp Ho];
    intros W; auto.
  - destruct W as [W | (more & a & rest & E & M & [Q|Q])].
    + inversion W as [|? ? (? & ? & ? & ?) ?]; discriminate.
    + destruct more as [|x more]; cbn in E; [congruence|].
      injection E as <- _. inversion M as [|? ? (? & ? & ? & ?) ?]; discriminate.
    + destruct more as [|x more]; cbn in E; [congruence|].
      injection E as <- _. inversion M as [|? ? (? & ? & ? & ?) ?]; discriminate.
  - apply IH. destruct W as [W | (more & a & rest & E & M & Q)].
    + left. inversion W; assumption.
    + destruct more as [|x more]; cbn in E.
      * injection E as <- _. destruct Q; discriminate.
      * injection E as <- ->. right. exists more, a, rest.
        inversion M; auto.
  - exfalso. destruct W as [W | (more & a & rest & E & M & Q)].
    + not_other W.
    + destruct more as [|x more]; cbn in E.
      * injection E as <- _. destruct Q; discriminate.
      * injection E as <- ->.
        not_other M.
  - exfalso. destruct W as [W | (more & a & rest & E & M & Q)].
    + not_other W.
    + destruct more as [|x more]; cbn in E.
      * injection E as <- _. destruct Q; discriminate.
      * injection E as <- ->.
        not_other M.
Qed.

Lemma reaper_pass_progress pid pre :
  forall q r c' q' p st code post,
    reaper_pass pid (-1) q r c' q' ->
    q = pre ++ WaitReaped p st :: post ->
    Forall (harmless pid) pre ->
    Z.pos p = pid -> outcome_of st = Some code ->
    pass_ends_well pid post ->
    r = 0 /\
    (c' = code \/
     (c' = -1 /\ exists pre',
        q' = pre' ++ WaitReaped p st :: post /\
        Forall (harmless pid) pre' /\
        (List.length pre' < List.length pre)%nat)).
Proof.
  induction pre as [|x pre IH]; intros q r c' q' p st code post P E H Hp Ho W.
  - cbn in E. subst q. inversion P; subst; try congruence.
    match goal with
    | Ho' : outcome_of st = Some ?code0, P' : reaper_pass _ ?code0 post _ _ _ |- _ =>
      assert (code0 = code) by congruence; subst code0;
      destruct (reaper_pass_tail _ _ _ _ _ _ P' W) as (-> & ->)
    end. auto.
  - cbn in E. subst q. inversion H as [|? ? Hx H']; subst.
    inversion P; subst; cbn in Hx; try congruence.
    + split; [reflexivity|]. right. split; [reflexivity|].
      exists pre. auto.
    + split; [reflexivity|]. right. split; [reflexivity|].
      exists pre. auto.
    + match goal with
      | P' : reaper_pass _ (-1) (pre ++ _) _ _ _ |- _ =>
        destruct (IH _ _ _ _ _ _ _ _ P' eq_refl H' eq_refl Ho W)
          as (-> & [-> | (-> & pre' & -> & Hh & Hl)])
      end.
      * auto.
      * split; [reflexivity|]. right. split; [reflexivity|].
        exists pre'. cbn. auto with arith.
Qed.

Lemma wait_and_forward_calm ps pid w :
  calm w ->
  exists w1,
    wait_and_forward_signal ps pid w = (Normal 0, w1) /\
    calm w1 /\ env_waitpid w1 = env_waitpid w.
Proof.
  unfold calm, wait_and_forward_signal.
  destruct w as [v e o pm tr q1 q2 q3 q4 f1 f2 f3 qs qk qw qa].
  cbn [env_sigtimedwait env_kill env_waitpid]. intros [Hs Hk].
  assert (Ha : calm_signal (hd (StwFail EAGAIN) qs))
    by (destruct Hs; cbn; auto).
  assert (Hs' : Forall calm_signal (tl qs)) by (destruct Hs; cbn; auto).
  assert (Hb : calm_kill (hd None qk)) by (destruct Hk; cbn; auto).
  assert (Hk' : Forall calm_kill (tl qk)) by (destruct Hk; cbn; auto).
  clear Hs Hk. revert Ha Hs' Hb Hk'.
  run; run; cases; cbn; intros Ha Hs' Hb Hk'; zbool.
  all: try (exfalso; destruct Ha; congruence).
  all: try (exfalso; congruence).
  all: eexists; (split; [reflexivity|]); cbn; auto.
Qed.

Lemma reap_frame_calm w w' : reap_frame w w' -> calm w -> calm w'.
Proof.
  unfold calm. intros F.
  destruct (reap_frame_fields _ _ F) as (_ & _ & -> & ->). auto.
Qed.

(** X7. The supervisor ends when the main child does.  Suppose the
    environment never answers the signal forwarder with a fatal error, and
    [waitpid] reports the main child, with a status that is a normal exit or
    a death by signal, after answers that neither report it nor are fatal,
    in a pass that then ends normally with other descendants only.  Then the
    supervision loop returns, within one turn per earlier answer plus one,
    and the value it returns is the outcome of that status. *)
Theorem supervision_ends_with_main_child :
  forall (parent_sigset : sigset) (child_pid : Z) (w : World)
         (pre : list wait_ret) (p : positive) (st : Z)
         (post : list wait_ret) (code : Z),
    calm w ->
    env_waitpid w = pre ++ WaitReaped p st :: post ->
    Forall (harmless child_pid) pre ->
    Z.pos p = child_pid ->
    outcome_of st = Some code ->
    pass_ends_well child_pid post ->
    exists fuel w',
      (fuel <= S (List.length pre))%nat /\
      main_loop fuel parent_sigset child_pid (-1) w = (Normal code, w').
Proof.
  intros ps pid w pre. remember (List.length pre) as n eqn:Hn.
  revert w pre Hn.
  induction n as [n IH] using lt_wf_ind.
  intros w pre Hn p st post code C E H Hp Ho W.
  destruct (wait_and_forward_calm ps pid w C) as (w1 & R1 & C1 & Q1).
  destruct (reap_zombies_spec pid (-1) w1)
    as (r2 & c2 & w2 & evs2 & R2 & P2 & _ & F2 & _).
  rewrite Q1, E in P2.
  destruct (reaper_pass_progress pid pre _ _ _ _ _ _ _ _ P2 eq_refl H Hp Ho W)
    as (-> & [-> | (-> & pre' & Q2 & H' & L')]).
  - exists 1%nat.
    destruct (print_gated_run 3 TRACE "Child has exited. Exiting" w2)
      as (evs3 & R3 & _).
    eexists. split; [lia|].
    cbn [main_loop]. unfold bind at 1. rewrite R1.
    change (negb (0 =? 0)) with false. cbv iota.
    unfold bind at 1. rewrite R2.
    change (negb (0 =? 0)) with false. cbv iota.
    assert (Hc : (code =? -1) = false)
      by (apply Z.eqb_neq; eapply outcome_of_set; eauto).
    rewrite Hc. cbn [negb].
    unfold PRINT_TRACE, bind at 1. rewrite R3. reflexivity.
  - destruct (IH (List.length pre') ltac:(lia) w2 pre' eq_refl p st post code)
      as (fuel & w' & Hf & R); auto.
    { eapply reap_frame_calm; eauto. }
    exists (S fuel), w'. split; [lia|].
    cbn [main_loop]. unfold bind at 1. rewrite R1.
    change (negb (0 =? 0)) with false. cbv iota.
    unfold bind at 1. rewrite R2.
    change (negb (0 =? 0)) with false. cbv iota.
    change (negb (-1 =? -1)) with false. cbv iota. exact R.
Qed.

(** ** Diagnostics are gated by the verbosity *)

Lemma log_enabled_mono v v' e : v <= v' -> log_enabled v e -> log_enabled v' e.
Proof.
  unfold log_enabled. destruct e; auto.
  destruct (threshold lvl); auto. lia.
Qed.

Lemma wg_ret {A} (a : A) : well_gated (ret a).
Proof.
  intros w o w' [= <- <-]. split; [lia|]. exists []. rewrite app_nil_r. auto.
Qed.

Lemma wg_bind {A B} (m : M A) (k : A -> M B) :
  well_gated m -> (forall a, well_gated (k a)) -> well_gated (bind m k).
Proof.
  intros Hm Hk w o w'. unfold bind.
  destruct (m w) as [o1 w1] eqn:R1.
  destruct (Hm _ _ _ R1) as (V1 & evs1 & T1 & G1).
  destruct o1 as [a| |].
  - intros R2. destruct (Hk a _ _ _ R2) as (V2 & evs2 & T2 & G2).
    split; [lia|]. exists (evs1 ++ evs2).
    split; [rewrite T2, T1, app_assoc; reflexivity|].
    apply Forall_app. split; [|exact G2].
    eapply Forall_impl; [|exact G1]. intros e. apply log_enabled_mono. exact V2.
  - intros [= <- <-]. eauto.
  - intros [= <- <-]. eauto.
Qed.

Lemma wg_get {A} (f : World -> A) : well_gated (get f).
Proof.
  intros w o w' [= <- <-]. split; [lia|]. exists []. rewrite app_nil_r. auto.
Qed.

Lemma wg_modify (f : World -> World) :
  (forall w, trace (f w) = trace w /\ verbosity w <= verbosity (f w)) ->
  well_gated (modify f).
Proof.
  intros H w o w' [= <- <-]. destruct (H w) as (T & V).
  split; [exact V|]. exists []. rewrite app_nil_r. auto.
Qed.

Lemma wg_emit e : (forall v, log_enabled v e) -> well_gated (emit e).
Proof.
  intros H w o w' [= <- <-]. destruct w; cbn. split; [lia|].
  eexists. split; [reflexivity|]. auto.
Qed.

Lemma wg_stop {A} (o0 : outcome A) : well_gated (fun w => (o0, w)).
Proof.
  intros w o w' [= <- <-]. split; [lia|]. exists []. rewrite app_nil_r. auto.
Qed.

Lemma wg_print_gated t l fmt :
  threshold l = Some t -> well_gated (print_gated t l fmt).
Proof.
  intros Ht w o w'. unfold print_gated, bind, get, emit, modify, ret.
  destruct (t <? verbosity w) eqn:E; intros [= <- <-].
  - destruct w; cbn in *. split; [lia|]. eexists. split; [reflexivity|].
    repeat constructor. cbn. rewrite Ht. apply Z.ltb_lt. exact E.
  - split; [lia|]. exists []. rewrite app_nil_r. auto.
Qed.

Ltac wg_step :=
  match goal with
  | |- well_gated (print_gated _ _ _) => apply wg_print_gated; reflexivity
  | |- well_gated (ret _) => apply wg_ret
  | |- well_gated (get _) => apply wg_get
  | |- well_gated out_of_fuel => apply wg_stop
  | |- well_gated replaced => apply wg_stop
  | |- well_gated (emit _) => apply wg_emit; intros; exact I
  | |- well_gated (modify _) =>
    apply wg_modify;
    let w := fresh "w" in intros w; destruct w; cbn; split; [reflexivity|lia]
  | |- well_gated (bind _ _) => apply wg_bind; [|intros]
  | |- well_gated (if ?b then _ else _) => destruct b
  | |- well_gated (match ?x with _ => _ end) => destruct x
  | |- well_gated (let (_, _) := ?x in _) => destruct x
  end.

Ltac wg :=
  unfold sigfillset, sigdelset, sigprocmask, getopt, calloc, fork, execvp,
    sigtimedwait, kill, waitpid_nohang, PRINT_FATAL, PRINT_WARNING,
    PRINT_INFO, PRINT_DEBUG, PRINT_TRACE, print_usage, fail_with;
  repeat wg_step.

Lemma wg_spawn cs args pid0 : well_gated (spawn cs args pid0).
Proof. unfold spawn. wg. Qed.

Lemma wg_wait_and_forward_signal ps pid :
  well_gated (wait_and_forward_signal ps pid).
Proof. unfold wait_and_forward_signal. wg. Qed.

Lemma wg_reap_loop n : forall pid c st, well_gated (reap_loop n pid c st).
Proof.
  induction n as [|n IH]; intros pid c st; cbn [reap_loop]; wg; apply IH.
Qed.

Lemma wg_reap_zombies pid c : well_gated (reap_zombies pid c).
Proof. unfold reap_zombies. wg. all: apply wg_reap_loop. Qed.

Lemma wg_main_loop fuel :
  forall ps pid c, well_gated (main_loop fuel ps pid c).
Proof.
  induction fuel as [|fuel IH]; intros ps pid c; cbn [main_loop]; wg.
  all: first [ apply wg_wait_and_forward_signal
             | apply wg_reap_zombies
             | apply IH ].
Qed.

Lemma wg_parse_options fuel :
  forall name pfe argv, well_gated (parse_options fuel name pfe argv).
Proof.
  induction fuel as [|fuel IH]; intros name pfe argv; cbn [parse_options]; wg.
  all: apply IH.
Qed.

Lemma wg_parse_args argc argv a0 pfe0 :
  well_gated (parse_args argc argv a0 pfe0).
Proof. unfold parse_args. wg. all: apply wg_parse_options. Qed.

Lemma wg_delete_signals sigs : forall set, well_gated (delete_signals sigs set).
Proof.
  induction sigs as [|s sigs IH]; intros set; cbn [delete_signals]; wg.
  all: apply IH.
Qed.

Lemma wg_prepare_sigmask p0 c0 : well_gated (prepare_sigmask p0 c0).
Proof. unfold prepare_sigmask. wg. all: apply wg_delete_signals. Qed.

Lemma wg_main fuel argv : well_gated (main fuel argv).
Proof.
  unfold main. wg.
  all: first [ apply wg_prepare_sigmask
             | apply wg_parse_args
             | apply wg_spawn
             | apply wg_main_loop ].
Qed.

Lemma logs_fatal_only v evs :
  v <= 0 -> Forall (log_enabled v) evs ->
  Forall (fun lf => fst lf = FATAL) (logs evs).
Proof.
  intros Hv H. induction H as [|e evs He H IH]; cbn; [constructor|].
  destruct e; cbn; auto.
  constructor; [|exact IH]. cbn in He |- *.
  destruct lvl; cbn in He; auto; lia.
Qed.

(** X8. Diagnostics follow the verbosity.  In every run of [main], however
    it ends, each diagnostic line below FATAL that was written is enabled by
    the verbosity the run ends with (WARN needs more than 0, INFO more than
    1, DEBUG more than 2, TRACE more than 3), and the verbosity never
    decreases.  In particular a run that ends at verbosity 0 or less has
    written no diagnostics other than FATAL lines. *)
Theorem diagnostics_follow_verbosity :
  forall (fuel : nat) (argv : list string) (w : World),
  exists o w' evs,
    main fuel argv w = (o, w') /\
    trace w' = trace w ++ evs /\
    verbosity w <= verbosity w' /\
    Forall (log_enabled (verbosity w')) evs /\
    (verbosity w' <= 0 -> Forall (fun lf => fst lf = FATAL) (logs evs)).
Proof.
  intros fuel argv w.
  destruct (main fuel argv w) as [o w'] eqn:R.
  destruct (wg_main fuel argv w o w' R) as (V & evs & T & G).
  exists o, w', evs. repeat split; auto.
  intros Hv. eapply logs_fatal_only; eauto.
Qed.

(** ** Signals never go astray *)

Lemma no_reaped_no_collected evs :
  (forall p, reaped_statuses p evs = []) -> collected evs = [].
Proof.
  induction evs as [|e evs IH]; intros H; [reflexivity|].
  assert (H' : forall p, reaped_statuses p evs = []).
  { intros p. specialize (H p). cbn in H.
    apply app_eq_nil in H. tauto. }
  destruct e; cbn; auto.
  specialize (H ret0). cbn in H. rewrite Z.eqb_refl in H. discriminate.
Qed.

Lemma parse_events_collected evs :
  forallb is_parse_event evs = true -> collected evs = [].
Proof.
  intros A. apply no_reaped_no_collected. intros p.
  apply parse_events_reaped. exact A.
Qed.

(** X9. [main] sends signals to the child it forked and to nobody else, and
    does nothing of the supervision without such a child.  In every run,
    [fork] is called at most once; every [kill] is addressed to the pid that
    [fork] returned, which is positive (so never to a process group or to
    every process); and in a run where [fork] was not called, failed, or
    returned in the child, tini never calls [sigtimedwait] or [kill] and
    collects no descendant. *)
Theorem signals_only_to_forked_child :
  forall (fuel : nat) (argv : list string) (w : World),
  exists o w' evs,
    main fuel argv w = (o, w') /\
    trace w' = trace w ++ evs /\
    (List.length (forks evs) <= 1)%nat /\
    Forall (fun k => forks evs = [fst k] /\ 0 < fst k) (kills evs) /\
    ((forall pid, forks evs = [pid] -> pid <= 0) ->
     turns evs = 0%nat /\ kills evs = [] /\ collected evs = []).
Proof.
  intros fuel argv w.
  destruct (main_spec fuel argv w) as (o & w' & evs & R & T & H).
  exists o, w', evs. split; [exact R|]. split; [exact T|].
  destruct H as [(_ & _ & fmt & ->) | (_ & r & args & pfe & w2 & evs2 & _ & _ & A2 & H)].
  { cbn. repeat split; auto. }
  pose proof (parse_events_forks _ A2) as K2.
  pose proof (parse_events_kills _ A2) as KL2.
  pose proof (parse_events_turns _ A2) as N2.
  pose proof (parse_events_collected _ A2) as C2.
  destruct H as [(_ & _ & _ & ->) | (_ & _ & _ & evs3 & evs4 & -> & _ & KL3 & N3 & S3 & H)].
  { change (EvSigprocmask SIG_SETMASK parent_mask :: evs2)
      with ([EvSigprocmask SIG_SETMASK parent_mask] ++ evs2).
    rewrite forks_app, kills_app, turns_app, collected_app, K2, KL2, N2, C2.
    cbn. repeat split; auto. }
  pose proof (no_reaped_no_collected _ S3) as C3.
  change (EvSigprocmask SIG_SETMASK parent_mask :: evs2 ++ evs3 ++ evs4)
    with ([EvSigprocmask SIG_SETMASK parent_mask] ++ evs2 ++ evs3 ++ evs4).
  rewrite !forks_app, !kills_app, !turns_app, !collected_app,
    K2, KL2, N2, C2, KL3, N3, C3.
  cbn [forks kills turns collected flat_map filter List.length app Nat.add].
  destruct (env_fork w) as [p| |e'].
  - destruct H as (K3 & _ & w3 & R4 & T4).
    destruct (main_loop_spec fuel parent_mask (Z.pos p) w3 AtLoopHead)
      as (o' & w'' & evs' & R' & T' & K' & _ & KL' & _); [lia|auto|].
    rewrite R4 in R'. injection R' as <- <-.
    rewrite T4 in T'. apply app_inv_head in T'. subst evs'.
    rewrite K3, K'. cbn. split; [lia|]. split.
    + eapply Forall_impl; [|exact KL']. intros k ->. split; [reflexivity|lia].
    + intros N. specialize (N _ eq_refl). lia.
  - destruct H as (-> & K3 & _). rewrite K3. cbn. repeat split; auto.
  - destruct H as (-> & _ & K3 & _). rewrite K3. cbn. repeat split; auto.
Qed.

(** ** Counting [-v] *)

Lemma parse_options_counts fuel :
  forall name pfe argv w,
    (List.length (env_getopt w) < fuel)%nat ->
    exists res w' evs,
      parse_options fuel name pfe argv w = (Normal res, w') /\
      trace w' = trace w ++ evs /\
      env_calloc w' = env_calloc w /\
      verbosity w' =
        verbosity w + Z.of_nat (count_occ Z.eq_dec (getopts evs) (ch "v")).
Proof.
  induction fuel as [|fuel IH]; intros name pfe argv w Hlen;
    [cbn in Hlen; lia|].
  destruct w as [v e o pm tr q1 q2 q3 q4 f1 f2 f3 qs qk qw qa].
  cbn [env_getopt] in Hlen |- *. cbn [parse_options].
  destruct q4 as [|[c oi] q4]; run.
  - eexists _, _, _. split; [reflexivity|]. cbn.
    split; [reflexivity|]. split; [reflexivity|].
    cbn [getopts flat_map app].
    rewrite count_occ_cons_neq by (intros H; vm_compute in H; discriminate).
    cbn. lia.
  - destruct (c =? ch "v") eqn:E3.
    + assert (c = ch "v") as -> by (zbool; assumption).
      run.
      match goal with
      | |- context [parse_options _ ?n1 ?p1 ?a1 ?w1] =>
        destruct (IH n1 p1 a1 w1) as (res & w' & evs & R & T & C & V);
        [cbn in *; lia|]; rewrite R; cbn in T, C, V
      end.
      eexists _, _, (EvGetopt (ch "v") :: evs). split; [reflexivity|].
      split; [rewrite T, <- ?app_assoc; reflexivity|].
      split; [exact C|].
      rewrite V. cbn [getopts flat_map app].
      rewrite count_occ_cons_eq by reflexivity. fold (getopts evs). lia.
    + assert (N : c <> ch "v") by (zbool; assumption).
      destruct (c =? -1) eqn:E1; cbn;
        [|destruct (c =? ch "h") eqn:E2; cbn;
          [|rewrite ?E3; cbn; destruct (c =? ch "?") eqn:E4; cbn]].
      all: eexists _, _, _; (split; [reflexivity|]); cbn.
      all: rewrite <- ?app_assoc; (split; [reflexivity|]); (split; [reflexivity|]).
      all: cbn [getopts flat_map app].
      all: rewrite count_occ_cons_neq by exact N.
      all: cbn; lia.
Qed.

(** X10. [parse_args] counts the [-v] options.  On every path through
    [parse_args] (options accepted or refused, allocation failed or not) the
    verbosity it leaves is the verbosity it found plus the number of times
    [getopt] reported [v]; no limit of four is applied. *)
Theorem verbosity_counts_v_options :
  forall (argc : Z) (argv a0 : list string) (pfe0 : Z) (w : World),
  exists res w' evs,
    parse_args argc argv a0 pfe0 w = (Normal res, w') /\
    trace w' = trace w ++ evs /\
    verbosity w' =
      verbosity w + Z.of_nat (count_occ Z.eq_dec (getopts evs) (ch "v")).
Proof.
  intros argc argv a0 pfe0 w. unfold parse_args.
  unfold bind at 1. unfold get at 1.
  unfold bind at 1.
  destruct (parse_options_counts (S (List.length (env_getopt w)))
              (nth 0 argv EmptyString) pfe0 argv w)
    as ([[r pfe] argv1] & w1 & evs & R & T & C & V); [lia|].
  rewrite R.
  destruct r as [v|]; [run; eexists _, _, evs; repeat split; auto|].
  destruct w1 as [v1 e o pm tr q1 q2 q3 q4 f1 f2 f3 qs qk qw qa].
  cbn in T, C, V. subst tr.
  destruct f1 as [e1|]; run; cases.
  all: eexists _, _, _; (split; [reflexivity|]); cbn [trace verbosity].
  all: rewrite <- ?app_assoc.
  all: (split; [reflexivity|]).
  all: rewrite ?getopts_app; cbn [getopts flat_map app]; rewrite ?app_nil_r.
  all: exact V.
Qed.

(** ** What [main] returns, and when it does not *)

Lemma parse_args_exitcode argc argv a0 w r args pfe w2 :
  parse_args argc argv a0 1 w = (Normal (r, args, pfe), w2) ->
  pfe = 0 \/ pfe = 1.
Proof.
  intros R.
  destruct (parse_args_spec argc argv a0 1 w)
    as (r' & args' & pfe' & w' & evs & R' & _ & _ & _ & _ & _ & H).
  rewrite R in R'. injection R' as <- <- <- <-. cbv zeta in H.
  destruct (skip_verbose (env_getopt w)) as [|[c oi] rest]; [tauto|].
  destruct (c =? -1); [tauto|].
  destruct (c =? ch "h"); [tauto|].
  destruct (c =? ch "?"); tauto.
Qed.

(** X11. The value [main] returns fits the eight bits of an exit status.
    Whenever [main] returns, with whatever the environment answered, the
    value is between 0 and 255: the sentinel [-1] that [child_exitcode]
    starts with is never returned, and nothing is lost when the kernel
    keeps the low byte of it. *)
Theorem exit_status_fits_a_byte :
  forall (fuel : nat) (argv : list string) (w : World),
  exists o w',
    main fuel argv w = (o, w') /\
    match o with
    | Normal code => 0 <= code <= 255
    | _ => True
    end.
Proof.
  intros fuel argv w.
  destruct (main_spec fuel argv w) as (o & w' & evs & R & _ & H).
  exists o, w'. split; [exact R|].
  destruct H as [(_ & -> & _) | (_ & r & args & pfe & w2 & evs2 & R2 & _ & _ & H)];
    [lia|].
  destruct H as [(_ & -> & _) | (_ & _ & _ & evs3 & evs4 & _ & _ & _ & _ & _ & H)].
  { destruct (parse_args_exitcode _ _ _ _ _ _ _ _ R2) as [-> | ->]; lia. }
  destruct (env_fork w) as [p| |e'].
  - destruct H as (_ & _ & w3 & R4 & _).
    destruct (main_loop_spec fuel parent_mask (Z.pos p) w3 AtLoopHead)
      as (o' & w'' & evs' & R' & _ & _ & _ & _ & _ & Ho); [lia|auto|].
    rewrite R4 in R'. injection R' as <- <-.
    destruct o as [code| |]; auto.
    destruct Ho as (_ & [(_ & ->) | (_ & st & _ & Hc)]); [lia|].
    eapply outcome_of_range; eauto.
  - destruct H as (_ & _ & [-> | (-> & _)]); [auto|lia].
  - destruct H as (_ & -> & _). lia.
Qed.

(** X12. [main] keeps running only while it supervises a live child.  If
    [main] has not returned after [fuel] turns of its loop, then it forked
    exactly once and is the parent, it has waited for a signal exactly
    [fuel] times, it has never collected its main child, and it has written
    no FATAL diagnostic; before the loop (mask setup, option parsing,
    [spawn]) nothing can keep it from returning. *)
Theorem runs_on_only_while_child_lives :
  forall (fuel : nat) (argv : list string) (w : World),
  exists o w' evs,
    main fuel argv w = (o, w') /\
    trace w' = trace w ++ evs /\
    (o = OutOfFuel ->
     exists p,
       env_fork w = ForkParent p /\
       forks evs = [Z.pos p] /\
       turns evs = fuel /\
       reaped_statuses (Z.pos p) evs = [] /\
       logged_fatal evs = false).
Proof.
  intros fuel argv w.
  destruct (main_spec fuel argv w) as (o & w' & evs & R & T & H).
  exists o, w', evs. split; [exact R|]. split; [exact T|].
  intros ->.
  destruct H as [(_ & [=] & _) | (_ & r & args & pfe & w2 & evs2 & _ & _ & A2 & H)].
  destruct H as [(_ & [=] & _) | (_ & L2 & _ & evs3 & evs4 & -> & _ & _ & N3 & S3 & H)].
  destruct (env_fork w) as [p| |e'].
  - destruct H as (K3 & L3 & w3 & R4 & T4).
    destruct (main_loop_spec fuel parent_mask (Z.pos p) w3 AtLoopHead)
      as (o' & w'' & evs' & R' & T' & K' & _ & _ & _ & Ho); [lia|auto|].
    rewrite R4 in R'. injection R' as <- <-.
    rewrite T4 in T'. apply app_inv_head in T'. subst evs'.
    destruct Ho as (L4 & S4 & N4).
    exists p. split; [reflexivity|].
    change (EvSigprocmask SIG_SETMASK parent_mask :: evs2 ++ evs3 ++ evs4)
      with ([EvSigprocmask SIG_SETMASK parent_mask] ++ evs2 ++ evs3 ++ evs4).
    rewrite !forks_app, !turns_app, !reaped_statuses_app, !logged_fatal_app.
    rewrite (parse_events_forks _ A2), (parse_events_turns _ A2),
      (parse_events_reaped _ _ A2), L2, K3, N3, S3, L3, K', N4, S4, L4.
    cbn. repeat split; reflexivity.
  - destruct H as (_ & _ & [[=] | ([=] & _)]).
  - destruct H as (_ & [=] & _).
Qed.

(** ** The parent keeps its signals blocked *)

Lemma mask_changes_app a b :
  mask_changes (a ++ b) = mask_changes a ++ mask_changes b.
Proof. unfold mask_changes. apply flat_map_app. Qed.

Lemma parse_events_mask_changes evs :
  forallb is_parse_event evs = true -> mask_changes evs = [].
Proof.
  induction evs as [|e evs IH]; cbn; [reflexivity|].
  intros H. apply andb_prop in H as [He H].
  destruct e; try discriminate; cbn; auto.
Qed.

Lemma waited_sets_turns evs : List.length (waited_sets evs) = turns evs.
Proof.
  unfold turns. induction evs as [|e evs IH]; cbn; [reflexivity|].
  destruct e; cbn; auto.
Qed.

Lemma no_turns_no_waits evs : turns evs = 0%nat -> waited_sets evs = [].
Proof.
  intros H. rewrite <- waited_sets_turns in H.
  destruct (waited_sets evs); [reflexivity|discriminate].
Qed.

(** X13. The parent keeps its signals blocked from the mask setup to the
    end.  In every run of [main] in which the mask setup succeeds and the
    process is not the forked child, [sigprocmask] is called exactly once,
    to install the parent mask; that mask is still installed when [main]
    stops, whatever the way (usage error, failed fork, FATAL error in the
    loop, end of the main child); and every [sigtimedwait] waits on exactly
    that mask, so a blocked signal is only ever taken synchronously. *)
Theorem parent_keeps_signals_blocked :
  forall (fuel : nat) (argv : list string) (w : World),
    mask_setup_ok w = true ->
    env_fork w <> ForkChild ->
    exists o w' evs,
      main fuel argv w = (o, w') /\
      trace w' = trace w ++ evs /\
      mask_changes evs = [(SIG_SETMASK, parent_mask)] /\
      procmask w' = parent_mask /\
      Forall (fun s => s = parent_mask) (waited_sets evs).
Proof.
  intros fuel argv w MS NC.
  unfold main. unfold bind at 1. rewrite (prepare_sigmask_ok 0 0 w MS).
  change (negb (0 =? 0)) with false. cbv iota.
  destruct (parse_args_spec (Z.of_nat (List.length argv)) argv [] 1
              (after_mask_setup w))
    as (r & args & pfe & w2 & evs2 & R2 & T2 & F2 & A2 & Hr2 & _).
  unfold bind at 1. rewrite R2.
  assert (T02 : trace w2 =
                trace w ++ [EvSigprocmask SIG_SETMASK parent_mask] ++ evs2).
  { rewrite T2. unfold after_mask_setup. cbn. rewrite <- app_assoc.
    reflexivity. }
  assert (P2 : procmask w2 = parent_mask).
  { unfold parse_frame in F2. rewrite F2. destruct w; reflexivity. }
  pose proof (parse_events_mask_changes _ A2) as M2.
  pose proof (no_turns_no_waits _ (parse_events_turns _ A2)) as W2.
  destruct Hr2 as [-> | ->].
  2: { change (negb (1 =? 0)) with true. cbv iota. unfold ret.
       eexists _, _, _. split; [reflexivity|]. split; [exact T02|].
       rewrite mask_changes_app, waited_sets_app, M2, W2. cbn.
       repeat split; auto. }
  change (negb (0 =? 0)) with false. cbv iota.
  destruct (spawn_cases (procmask w) args 0 w2)
    as (o3 & w3 & evs3 & R3 & T3 & H3).
  destruct (spawn_spec (procmask w) args 0 w2)
    as (o3' & w3' & evs3' & R3' & T3' & _ & _ & N3 & _).
  rewrite R3 in R3'. injection R3' as <- <-.
  rewrite T3 in T3'. apply app_inv_head in T3'. subst evs3'.
  apply no_turns_no_waits in N3.
  unfold bind at 1. rewrite R3.
  assert (EF : env_fork w2 = env_fork w).
  { rewrite (parse_frame_env_fork _ _ F2). destruct w; reflexivity. }
  rewrite EF in H3.
  destruct (env_fork w) as [p| |e']; [| contradiction |].
  - destruct H3 as (-> & _ & _ & M3 & P3 & _).
    change (negb (0 =? 0)) with false. cbv iota.
    destruct (main_loop_signals fuel parent_mask (Z.pos p) (-1) w3)
      as (o & w' & evs4 & R4 & T4 & _ & W4 & _ & _ & M4 & P4 & _).
    exists o, w', ([EvSigprocmask SIG_SETMASK parent_mask] ++ evs2 ++ evs3 ++ evs4).
    split; [exact R4|].
    split; [rewrite T4, T3, T02, <- ?app_assoc; reflexivity|].
    rewrite !mask_changes_app, !waited_sets_app, M2, W2, M3, N3, M4.
    split; [reflexivity|].
    split; [congruence|].
    cbn. rewrite W4. apply Forall_forall.
    intros s I. apply repeat_spec in I. exact I.
  - destruct H3 as (-> & _ & _ & M3 & P3 & _).
    change (negb (1 =? 0)) with true. cbv iota. unfold ret.
    exists (Normal 1), w3, ([EvSigprocmask SIG_SETMASK parent_mask] ++ evs2 ++ evs3).
    split; [reflexivity|].
    split; [rewrite T3, T02, <- ?app_assoc; reflexivity|].
    rewrite !mask_changes_app, !waited_sets_app, M2, W2, M3, N3.
    split; [reflexivity|].
    split; [congruence|]. cbn. constructor.
Qed.

Lemma parent_keeps_signals_blocked_witness :
  exists o w' evs,
    main 5 demo_argv demo_world = (o, w') /\
    trace w' = trace demo_world ++ evs /\
    mask_changes evs = [(SIG_SETMASK, parent_mask)] /\
    procmask w' = parent_mask /\
    Forall (fun s => s = parent_mask) (waited_sets evs).
Proof.
  apply (parent_keeps_signals_blocked 5 demo_argv demo_world).
  - reflexivity.
  - discriminate.
Defined.

(** ** The theorems at work on more sample runs *)

Lemma parse_args_child_vector_witness :
  exists w',
    parse_args (Z.of_nat (List.length child_argv)) child_argv [] 1 child_world =
      (Normal (0, skipn 2 ["tini"; "-v"; "sleep"; "1"]%string, 1), w') /\
    skipn 2 ["tini"; "-v"; "sleep"; "1"]%string <> [] /\
    verbosity w' = verbosity child_world + Z.of_nat (List.length [(ch "v", 3)]) /\
    trace w' =
      trace child_world ++
      map (fun a => EvGetopt (fst a)) [(ch "v", 3)] ++ [EvGetopt (-1)] /\
    optind w' = Z.of_nat 2 /\ env_getopt w' = [] /\
    procmask w' = procmask child_world.
Proof.
  apply (parse_args_child_vector child_argv
           ["tini"; "-v"; "sleep"; "1"]%string [] 1 child_world
           [(ch "v", 3)] [] 2).
  - reflexivity.
  - repeat constructor.
  - reflexivity.
  - reflexivity.
  - reflexivity.
  - cbn. lia.
Defined.

Lemma child_runs_with_original_mask_witness :
  exists o w' tail,
    main 5 child_argv child_world = (o, w') /\
    procmask w' = procmask child_world /\
    trace w' =
      trace child_world ++
      [EvSigprocmask SIG_SETMASK parent_mask] ++
      map (fun a => EvGetopt (fst a)) [(ch "v", 3)] ++
      [EvGetopt (-1); EvFork 0;
       EvSigprocmask SIG_SETMASK (procmask child_world);
       EvExecvp (nth 2 ["tini"; "-v"; "sleep"; "1"]%string EmptyString)
         (skipn 2 ["tini"; "-v"; "sleep"; "1"]%string)] ++ tail /\
    match env_execvp child_world with
    | None => o = Replaced /\ tail = []
    | Some e =>
      o = Normal 1 /\
      tail = [EvLog FATAL "Executing child process '%s' failed: '%s'"]
    end.
Proof.
  apply (child_runs_with_original_mask 5 child_argv
           ["tini"; "-v"; "sleep"; "1"]%string child_world
           [(ch "v", 3)] [] 2).
  - reflexivity.
  - reflexivity.
  - repeat constructor.
  - reflexivity.
  - reflexivity.
  - reflexivity.
  - cbn. lia.
  - reflexivity.
  - reflexivity.
Defined.

Lemma reap_zombies_drains_witness :
  exists c' w' evs,
    reap_zombies 42 (-1) busy_world = (Normal (0, c'), w') /\
    trace w' = trace busy_world ++ evs /\
    collected evs =
      flat_map reaped_pair [WaitReaped 7 0; WaitReaped 42 256; WaitReaped 9 9] /\
    env_waitpid w' = [WaitReaped 11 0].
Proof.
  apply (reap_zombies_drains 42 (-1) busy_world
           [WaitReaped 7 0; WaitReaped 42 256; WaitReaped 9 9] WaitNone
           [WaitReaped 11 0]).
  - reflexivity.
  - repeat (apply Forall_cons;
            [intros _; first [left; reflexivity | right; reflexivity]|]).
    apply Forall_nil.
  - left. reflexivity.
Defined.

Lemma supervision_ends_with_main_child_witness :
  exists fuel w',
    (fuel <= S (List.length [WaitNone; WaitNone; WaitReaped 7 0]))%nat /\
    main_loop fuel parent_mask 42 (-1) demo_world = (Normal 143, w').
Proof.
  apply (supervision_ends_with_main_child parent_mask 42 demo_world
           [WaitNone; WaitNone; WaitReaped 7 0] 42 15 [WaitNone] 143).
  - split.
    + repeat (apply Forall_cons;
              [first [exact I | left; reflexivity | right; reflexivity]|]).
      apply Forall_nil.
    + apply Forall_nil.
  - reflexivity.
  - repeat (apply Forall_cons; [first [exact I | discriminate]|]).
    apply Forall_nil.
  - reflexivity.
  - reflexivity.
  - right. exists [], WaitNone, []. split; [reflexivity|].
    split; [apply Forall_nil|left; reflexivity].
Defined.

(** The child of [tini sleep -v 1] runs [sleep 1]. *)
Example child_run_execs :
  execs (trace (snd (main 5 child_argv child_world))) =
    [("sleep"%string, ["sleep"; "1"]%string)].
Proof. vm_compute. reflexivity. Qed.
